(** * DIRELEX: the dictionary data layer and page-data assembly

    A shallow embedding of [internal/core] of github.com/softcatala/direlex
    (data loading, the slug index, the letter list, navigation and the
    [PageData] constructors) together with the properties of its
    specification.

    Conventions of the embedding:
    - a Go [string] is a sequence of bytes: Rocq's [string], one [ascii]
      per byte;
    - a Go [int] is a [Z]; every [int] of this package is a slice length or
      a position in a slice, so no operation on it leaves the 64-bit range;
    - a slice is a [list]; indexing it out of range panics, which is the
      [Panics] outcome of [run]; a slice that [encoding/json] decodes into
      is a [Slice], its elements and the rest of its backing array;
    - a Go map is a [gmap]; the nil map and the empty map read alike;
    - the package-level variables are the fields of the record [Globals];
    - what the package takes from outside (files, gzip, the JSON scanner)
      is a parameter, the class [Environment]. *)

From Stdlib Require Import ZArith Ascii String List.
From stdpp Require Import base option list gmap strings sorting fin_maps.

Local Open Scope Z_scope.

(** * Part I: the program *)

(** ** Go runtime: panics, indexing, conversions *)

(** The outcome of running Go code that may panic. *)
Inductive run (A : Type) : Type :=
  | Returns (a : A)
  | Panics.
Arguments Returns {A} a.
Arguments Panics {A}.

Definition run_bind {A B} (m : run A) (k : A -> run B) : run B :=
  match m with
  | Returns a => k a
  | Panics => Panics
  end.

Notation "x <-! m ; k" := (run_bind m (fun x => k))
  (at level 100, m at next level, right associativity, only parsing).

(** [len(l)] for a slice. *)
Definition len {A} (l : list A) : Z := Z.of_nat (length l).

(** [len(s)] for a string: its number of bytes. *)
Definition strlen (s : string) : Z := Z.of_nat (String.length s).

(** [l[i]] for a slice: a run-time panic when [i] is out of range. *)
Definition index {A} (l : list A) (i : Z) : run A :=
  if (i <? 0) || (len l <=? i) then Panics
  else match l !! Z.to_nat i with
       | Some a => Returns a
       | None => Panics
       end.

(** [s[0]] for a string: its first byte, a panic on the empty string. *)
Definition byte0 (s : string) : run ascii :=
  match s with
  | EmptyString => Panics
  | String b _ => Returns b
  end.

(** [string(b)] for a byte [b]: Go converts an integer to the UTF-8
    encoding of the code point of that value, so a byte below 0x80 gives
    the one-byte string and a byte from 0x80 up gives two bytes. *)
Definition string_of_byte (b : ascii) : string :=
  let n := N_of_ascii b in
  if (n <? 128)%N then String b EmptyString
  else String (ascii_of_N (N.lor 192 (N.shiftr n 6)))
         (String (ascii_of_N (N.lor 128 (N.land n 63))) EmptyString).

(** [strings.ReplaceAll(s, old, new)] for a non-empty [old]: the
    non-overlapping occurrences of [old] are replaced from the left.
    [skip] counts the bytes of an occurrence still to be dropped. *)
Fixpoint ReplaceAll_from (skip : nat) (s old new : string) : string :=
  match s with
  | EmptyString => EmptyString
  | String b s' =>
      match skip with
      | S k => ReplaceAll_from k s' old new
      | O =>
          if String.prefix old s
          then String.append new
                 (ReplaceAll_from (String.length old - 1) s' old new)
          else String b (ReplaceAll_from O s' old new)
      end
  end.

Definition ReplaceAll (s old new : string) : string :=
  ReplaceAll_from O s old new.

(** [slices.Sorted(maps.Keys(m))]: the keys of [m], in the unspecified
    order of map iteration, sorted by Go's [<] on strings, the
    lexicographic order on bytes.  That order is total and a map has no
    duplicate keys, so the result does not depend on the sorting algorithm
    nor on the iteration order. *)
Definition maps_Keys {V} (m : gmap string V) : list string :=
  (map_to_list m).*1.

Definition slices_Sorted (keys : list string) : list string :=
  merge_sort String.le keys.

(** [slices.Index(s, v)]: the first position of [v] in [s], or -1. *)
Fixpoint slices_Index_from (i : Z) (s : list string) (v : string) : Z :=
  match s with
  | [] => -1
  | x :: s' => if decide (x = v) then i else slices_Index_from (i + 1) s' v
  end.

Definition slices_Index (s : list string) (v : string) : Z :=
  slices_Index_from 0 s v.

(** ** types.go *)

Record Entry : Type := mkEntry {
  Slug : string;
  DisplayTitle : string;
  NormalizedTitle : string;
  Content : string
}.

Record SemanticField : Type := mkSemanticField {
  Title : string;
  Body : string;
  Path : string
}.

Module LetterEntry.
Record t : Type := mk {
  Slug : string;
  DisplayTitle : string
}.
End LetterEntry.

Record PageData : Type := mkPageData {
  PlainTextTitle : string;
  PageType : string;
  Letters : list string;
  PrevSlug : string;
  NextSlug : string;
  Letter : string;
  PrevLetter : string;
  NextLetter : string;
  Entries : list LetterEntry.t;
  GlossaryLetters : list string;
  GlossaryContent : gmap string string;
  ContentHTML : string
}.

(** ** Package core: the package-level variables *)

Record Globals : Type := mkGlobals {
  AllEntries : list Entry;
  entryIndexBySlug : gmap string Z;
  DictionaryLetters : list string;
  Glossary : gmap string string;
  SemanticFields : list SemanticField
}.

(** ** encoding/json, as [LoadDataFromFile] uses it *)

#[local] Unset Elimination Schemes.

(** A JSON value as [encoding/json] scans it from the input: the members
    of an object in the order of the text, a name possibly more than once. *)
Inductive json : Type :=
  | JNull
  | JBool (b : bool)
  | JNumber (literal : string)
  | JString (s : string)
  | JArray (elements : list json)
  | JObject (members : list (string * json)).

#[local] Set Elimination Schemes.

(** What [LoadDataFromFile] takes from outside the package: the file
    system, [compress/gzip], the scanner of [encoding/json] and the case
    folding [encoding/json] applies to member names. *)
Class Environment : Type := {
  error : Type;
  File : Type;
  Reader : Type;
  (** [os.Open] *)
  os_Open : string -> error + File;
  (** [gzip.NewReader]: it reads and checks the gzip header. *)
  gzip_NewReader : File -> error + Reader;
  (** What [Decode] reads: the first JSON value of the decompressed
      stream, or the error met before the end of that value, when the
      stream is corrupt or ends there, or when it is not JSON.  What follows
      the value is not read. *)
  read_value : Reader -> error + json;
  foldName : string -> string
}.

(** The declared field a member name denotes: the one whose JSON name is
    the member name, else the first one equal to it up to case folding;
    a name that denotes no field is skipped by the decoder. *)
Definition find_name {env : Environment} (names : list string) (key : string)
  : option string :=
  match List.find (String.eqb key) names with
  | Some name => Some name
  | None =>
      List.find (fun name => String.eqb (foldName name) (foldName key)) names
  end.

(** Decoding into a [string]: [null] leaves the value as it is, any other
    JSON value than a string is an [UnmarshalTypeError], here [None]. *)
Definition decode_string (cur : string) (v : json) : option string :=
  match v with
  | JString s => Some s
  | JNull => Some cur
  | _ => None
  end.

(** The members of an object, decoded one after the other into [cur]. *)
Fixpoint decode_members {T} (step : T -> string * json -> option T)
    (cur : T) (members : list (string * json)) : option T :=
  match members with
  | [] => Some cur
  | m :: members' =>
      match step cur m with
      | Some cur' => decode_members step cur' members'
      | None => None
      end
  end.

(** Decoding into a struct whose fields have the JSON names [names]. *)
Definition decode_struct {env : Environment} {T} (names : list string)
    (set : T -> string -> json -> option T) (cur : T) (v : json) : option T :=
  match v with
  | JObject members =>
      decode_members
        (fun cur m =>
           match find_name names m.1 with
           | Some name => set cur name m.2
           | None => Some cur
           end)
        cur members
  | JNull => Some cur
  | _ => None
  end.

(** A slice while [encoding/json] decodes into it: its elements and, after
    them, the elements of its backing array that an earlier and longer
    array has left there.  The memory after these is zero. *)
Record Slice (T : Type) : Type := mkSlice {
  slice_elements : list T;
  slice_spare : list T
}.
Arguments mkSlice {T} _ _.
Arguments slice_elements {T} _.
Arguments slice_spare {T} _.

(** The loop of [array]: the element at position [i] of the JSON array is
    decoded into the element the backing array holds at [i], the zero value
    where nothing has been written. *)
Fixpoint decode_elements {T} (decode_elem : T -> json -> option T) (zero : T)
    (backing : list T) (elements : list json) : option (list T) :=
  match elements with
  | [] => Some []
  | x :: elements' =>
      match decode_elem (hd zero backing) x with
      | Some e =>
          match decode_elements decode_elem zero (tl backing) elements' with
          | Some es => Some (e :: es)
          | None => None
          end
      | None => None
      end
  end.

(** Decoding into a slice.  The elements the slice already holds are
    decoded into, not replaced, and the slice is cut or extended to the
    length of the array; the empty array gives a new empty slice and
    [null] the nil slice. *)
Definition decode_slice {T} (decode_elem : T -> json -> option T) (zero : T)
    (cur : Slice T) (v : json) : option (Slice T) :=
  match v with
  | JArray [] => Some (mkSlice [] [])
  | JArray elements =>
      let backing := slice_elements cur ++ slice_spare cur in
      match decode_elements decode_elem zero backing elements with
      | Some es => Some (mkSlice es (drop (length elements) backing))
      | None => None
      end
  | JNull => Some (mkSlice [] [])
  | _ => None
  end.

(** Decoding into a [map[string]string]: the members are added to the map
    at hand; [null] gives the nil map. *)
Definition decode_map (cur : gmap string string) (v : json)
  : option (gmap string string) :=
  match v with
  | JObject members =>
      decode_members
        (fun cur m =>
           match decode_string EmptyString m.2 with
           | Some s => Some (<[m.1 := s]> cur)
           | None => None
           end)
        cur members
  | JNull => Some ∅
  | _ => None
  end.

(** The JSON names of the fields of [Entry], from its struct tags. *)
Definition Entry_names : list string :=
  ["title"; "title_display"; "title_normalized"; "content"].

Definition Entry_zero : Entry := mkEntry "" "" "" "".

(** Decoding [v] into the field of JSON name [name], one of [Entry_names]. *)
Definition Entry_set (e : Entry) (name : string) (v : json) : option Entry :=
  if decide (name = "title") then
    s ← decode_string (Slug e) v;
    Some (mkEntry s (DisplayTitle e) (NormalizedTitle e) (Content e))
  else if decide (name = "title_display") then
    s ← decode_string (DisplayTitle e) v;
    Some (mkEntry (Slug e) s (NormalizedTitle e) (Content e))
  else if decide (name = "title_normalized") then
    s ← decode_string (NormalizedTitle e) v;
    Some (mkEntry (Slug e) (DisplayTitle e) s (Content e))
  else
    s ← decode_string (Content e) v;
    Some (mkEntry (Slug e) (DisplayTitle e) (NormalizedTitle e) s).

(** The JSON names of the fields of [SemanticField]. *)
Definition SemanticField_names : list string := ["title"; "body"; "path"].

Definition SemanticField_zero : SemanticField := mkSemanticField "" "" "".

(** Decoding [v] into the field of JSON name [name], one of
    [SemanticField_names]. *)
Definition SemanticField_set (f : SemanticField) (name : string) (v : json)
  : option SemanticField :=
  if decide (name = "title") then
    s ← decode_string (Title f) v; Some (mkSemanticField s (Body f) (Path f))
  else if decide (name = "body") then
    s ← decode_string (Body f) v; Some (mkSemanticField (Title f) s (Path f))
  else
    s ← decode_string (Path f) v; Some (mkSemanticField (Title f) (Body f) s).

(** ** Package core: loading *)

(** The anonymous struct of [LoadDataFromFile] that the JSON document is
    decoded into. *)
Record Data : Type := mkData {
  data_Entries : list Entry;
  data_SemanticFields : list SemanticField;
  data_Glossary : gmap string string
}.

(** The JSON names of the fields of the struct [data]. *)
Definition Data_names : list string :=
  ["entries"; "semantic_fields"; "glossary"].

(** The variable [data] while [Decode] fills it. *)
Record Decoding : Type := mkDecoding {
  decoding_Entries : Slice Entry;
  decoding_SemanticFields : Slice SemanticField;
  decoding_Glossary : gmap string string
}.

(** [var data struct {...}]: two nil slices and a nil map. *)
Definition Decoding_zero : Decoding :=
  mkDecoding (mkSlice [] []) (mkSlice [] []) ∅.

(** Decoding [v] into the field of JSON name [name], one of [Data_names]:
    each field is decoded into the value it holds. *)
Definition Data_set {env : Environment} (d : Decoding) (name : string)
    (v : json) : option Decoding :=
  if decide (name = "entries") then
    l ← decode_slice (decode_struct Entry_names Entry_set) Entry_zero
          (decoding_Entries d) v;
    Some (mkDecoding l (decoding_SemanticFields d) (decoding_Glossary d))
  else if decide (name = "semantic_fields") then
    l ← decode_slice (decode_struct SemanticField_names SemanticField_set)
          SemanticField_zero (decoding_SemanticFields d) v;
    Some (mkDecoding (decoding_Entries d) l (decoding_Glossary d))
  else
    m ← decode_map (decoding_Glossary d) v;
    Some (mkDecoding (decoding_Entries d) (decoding_SemanticFields d) m).

(** [data] as the statements after [Decode] read it. *)
Definition decoded (d : Decoding) : Data :=
  mkData (slice_elements (decoding_Entries d))
    (slice_elements (decoding_SemanticFields d)) (decoding_Glossary d).

(** [Unmarshal] of a scanned value into [&data]. *)
Definition Unmarshal_Data {env : Environment} (v : json) : option Data :=
  decoded <$> decode_struct Data_names Data_set Decoding_zero v.

(** The errors of [encoding/json]'s [Decode]. *)
Inductive DecodeError {env : Environment} : Type :=
  | ReadError (err : error)
  | UnmarshalTypeError.

(** [json.NewDecoder(gzipReader).Decode(&data)] *)
Definition json_Decode {env : Environment} (gzipReader : Reader)
  : DecodeError + Data :=
  match read_value gzipReader with
  | inl err => inl (ReadError err)
  | inr v =>
      match Unmarshal_Data v with
      | Some data => inr data
      | None => inl UnmarshalTypeError
      end
  end.

(** [template.HTML(s)]: a conversion between two string types. *)
Definition template_HTML (s : string) : string := s.

(** The loop that copies the glossary into a fresh map, converting each
    value to [template.HTML]. *)
Definition convertGlossary (glossary : gmap string string)
  : gmap string string :=
  map_fold (fun letter content acc => <[letter := template_HTML content]> acc)
    ∅ glossary.

(** The loop [for i, entry := range AllEntries] of [LoadDataFromFile]: it
    fills [entryIndexBySlug] and [letterMap]. *)
Fixpoint index_loop (i : Z) (entries : list Entry)
    (idx : gmap string Z) (letterMap : gmap string bool)
  : run (gmap string Z * gmap string bool) :=
  match entries with
  | [] => Returns (idx, letterMap)
  | entry :: rest =>
      let idx := <[Slug entry := i]> idx in
      letterMap <-!
        (if 0 <? strlen (NormalizedTitle entry) then
           b <-! byte0 (NormalizedTitle entry);
           let firstLetter := string_of_byte b in
           Returns (<[firstLetter := true]> letterMap)
         else Returns letterMap);
      index_loop (i + 1) rest idx letterMap
  end.

(** [LoadDataFromFile] from the decoded document on: the assignments to
    the package-level variables. *)
Definition publish (data : Data) : run Globals :=
  let allEntries := data_Entries data in
  let semanticFields := data_SemanticFields data in
  let glossary := convertGlossary (data_Glossary data) in
  r <-! index_loop 0 allEntries ∅ ∅;
  let '(idx, letterMap) := r in
  Returns (mkGlobals allEntries idx (slices_Sorted (maps_Keys letterMap))
             glossary semanticFields).

(** The errors [LoadDataFromFile] returns, one per [fmt.Errorf]. *)
Inductive LoadError {env : Environment} : Type :=
  | failed_to_open_data_file (filePath : string) (err : error)
  | failed_to_create_gzip_reader (err : error)
  | failed_to_decode_JSON (err : DecodeError).

(** [LoadDataFromFile]: the package-level variables after the call and the
    error returned, [None] for [nil]. *)
Definition LoadDataFromFile {env : Environment} (filePath : string) (g : Globals)
  : run (Globals * option LoadError) :=
  match os_Open filePath with
  | inl err => Returns (g, Some (failed_to_open_data_file filePath err))
  | inr file =>
      match gzip_NewReader file with
      | inl err => Returns (g, Some (failed_to_create_gzip_reader err))
      | inr gzipReader =>
          match json_Decode gzipReader with
          | inl err => Returns (g, Some (failed_to_decode_JSON err))
          | inr data =>
              g' <-! publish data;
              Returns (g', None)
          end
      end
  end.

(** ** Package core: rendering and navigation *)

(** [fmt.Sprintf] with the format [<h2>%s</h2><div>%s</div>]. *)
Definition RenderEntry (entry : Entry) : string :=
  ("<h2>" +:+ DisplayTitle entry +:+ "</h2><div>" +:+ Content entry
     +:+ "</div>")%string.

Definition RenderEntryBySlug (g : Globals) (slug : string)
  : run (string * bool) :=
  match entryIndexBySlug g !! slug with
  | None => Returns (EmptyString, false)
  | Some i =>
      entry <-! index (AllEntries g) i;
      Returns (RenderEntry entry, true)
  end.

Definition GetAdjacentEntrySlugs (g : Globals) (slug : string)
  : run (string * string) :=
  match entryIndexBySlug g !! slug with
  | None => Returns (EmptyString, EmptyString)
  | Some i =>
      prev <-!
        (if 0 <? i then
           e <-! index (AllEntries g) (i - 1); Returns (Slug e)
         else Returns EmptyString);
      next <-!
        (if i <? len (AllEntries g) - 1 then
           e <-! index (AllEntries g) (i + 1); Returns (Slug e)
         else Returns EmptyString);
      Returns (prev, next)
  end.

Definition GetNavigationLetters (g : Globals) (letter : string)
  : run (string * string) :=
  let i := slices_Index (DictionaryLetters g) letter in
  if i <? 0 then Returns (EmptyString, EmptyString)
  else
    prev <-!
      (if 0 <? i then index (DictionaryLetters g) (i - 1)
       else Returns EmptyString);
    next <-!
      (if i <? len (DictionaryLetters g) - 1
       then index (DictionaryLetters g) (i + 1)
       else Returns EmptyString);
    Returns (prev, next).

(** ** Package core: page data *)

Definition CreateStaticPageData (g : Globals) (path title : string)
  : PageData :=
  let data := mkPageData title path [] "" "" "" "" "" [] [] ∅ "" in
  if decide (path = "glossari") then
    mkPageData (PlainTextTitle data) (PageType data) (Letters data)
      (PrevSlug data) (NextSlug data) (Letter data) (PrevLetter data)
      (NextLetter data) (Entries data)
      (slices_Sorted (maps_Keys (Glossary g)))
      (Glossary g)
      (ContentHTML data)
  else data.

Definition CreateEntryPageData (slug entryHTML prevSlug nextSlug : string)
  : PageData :=
  mkPageData (ReplaceAll slug "_" " ") "entry" [] prevSlug nextSlug
    "" "" "" [] [] ∅ (template_HTML entryHTML).

(** The loop of [GetEntriesByFirstLetter]; [entries] is the slice built so
    far.  [&&] evaluates its right operand, and so [letter[0]], only when
    the length test holds. *)
Fixpoint GetEntriesByFirstLetter_loop (rest : list Entry) (letter : string)
    (entries : list LetterEntry.t) : run (list LetterEntry.t) :=
  match rest with
  | [] => Returns entries
  | entry :: rest' =>
      cond <-!
        (if 0 <? strlen (NormalizedTitle entry) then
           a <-! byte0 (NormalizedTitle entry);
           b <-! byte0 letter;
           Returns (Ascii.eqb a b)
         else Returns false);
      GetEntriesByFirstLetter_loop rest' letter
        (if cond : bool
         then entries ++
              [LetterEntry.mk (Slug entry) (template_HTML (DisplayTitle entry))]
         else entries)
  end.

Definition GetEntriesByFirstLetter (g : Globals) (letter : string)
  : run (list LetterEntry.t) :=
  GetEntriesByFirstLetter_loop (AllEntries g) letter [].

(** ** Package core: the other page data *)

Definition CreateHomePageData (g : Globals) : PageData :=
  mkPageData "Diccionari de recursos lexicals" "home" (DictionaryLetters g)
    "" "" "" "" "" [] [] ∅ "".

Definition CreateSemanticFieldPageData (title body : string) : PageData :=
  mkPageData title "semantic-field" [] "" "" "" "" "" [] [] ∅
    (template_HTML body).

(** The title is [fmt.Sprintf] with the format
    [Paraules que comencen per %s]. *)
Definition CreateLetterPageData (letter : string)
    (entries : list LetterEntry.t) (prevLetter nextLetter : string)
  : PageData :=
  mkPageData ("Paraules que comencen per " +:+ letter) "letter" [] "" ""
    letter prevLetter nextLetter entries [] ∅ "".

Definition Create404PageData : PageData :=
  mkPageData "No s'ha trobat" "404" [] "" "" "" "" "" [] [] ∅ "".

(** ** Package server: the handlers *)

(** What a handler answers: the status code of the response and the page
    data it executes [MainTemplate] with.  An error of the template is
    logged and changes neither. *)
Record Response : Type := mkResponse {
  StatusCode : Z;
  Page : PageData
}.

(** [http.StatusNotFound] and the status of a response whose header the
    handler does not write, [http.StatusOK]. *)
Definition StatusNotFound : Z := 404.
Definition StatusOK : Z := 200.

Definition serveNotFound : Response :=
  mkResponse StatusNotFound Create404PageData.

Definition BasicPageHandler (g : Globals) (path title : string) : Response :=
  mkResponse StatusOK (CreateStaticPageData g path title).

(** [slug] is [r.PathValue("slug")] and [urlPath] is [r.URL.Path]. *)
Definition IndexAndEntryHandler (g : Globals) (slug urlPath : string)
  : run Response :=
  if decide (slug = EmptyString) then
    if decide (urlPath <> "/") then Returns serveNotFound
    else Returns (mkResponse StatusOK (CreateHomePageData g))
  else
    r <-! RenderEntryBySlug g slug;
    let '(entryHTML, ok) := r in
    if negb ok then Returns serveNotFound
    else
      adj <-! GetAdjacentEntrySlugs g slug;
      let '(prevSlug, nextSlug) := adj in
      Returns (mkResponse StatusOK
                 (CreateEntryPageData slug entryHTML prevSlug nextSlug)).

(** [letter] is [r.PathValue("letter")].  [||] evaluates [letter[0]] only
    when the length is one. *)
Definition LetterHandler (g : Globals) (letter : string) : run Response :=
  invalid <-!
    (if negb (strlen letter =? 1) then Returns true
     else
       a <-! byte0 letter;
       if Ascii.ltb a "a" then Returns true
       else b <-! byte0 letter; Returns (Ascii.ltb "z" b));
  if invalid : bool then Returns serveNotFound
  else
    entries <-! GetEntriesByFirstLetter g letter;
    if len entries =? 0 then Returns serveNotFound
    else
      nav <-! GetNavigationLetters g letter;
      let '(prevLetter, nextLetter) := nav in
      Returns (mkResponse StatusOK
                 (CreateLetterPageData letter entries prevLetter nextLetter)).

(** The loop of [SemanticFieldHandler] over [core.SemanticFields]. *)
Fixpoint SemanticFieldHandler_loop (fields : list SemanticField)
    (slug : string) : Response :=
  match fields with
  | [] => serveNotFound
  | field :: fields' =>
      if decide (Path field = slug) then
        mkResponse StatusOK
          (CreateSemanticFieldPageData (Title field) (Body field))
      else SemanticFieldHandler_loop fields' slug
  end.

Definition SemanticFieldHandler (g : Globals) (slug : string) : Response :=
  SemanticFieldHandler_loop (SemanticFields g) slug.

(** ** Package generator: which files are compressed *)

(** The outcome of the scan of [filepath.Ext], which runs from the end of
    the path towards its start: the extension found at a dot, a stop at a
    path separator, or neither yet. *)
Inductive ext_scan : Type :=
  | ExtFound (ext : string)
  | ExtStopped
  | ExtNone.

(** The scan over [path], decided by what follows the first byte: the
    byte is looked at only when the rest holds neither a dot nor a
    separator.  The separator is that of Unix. *)
Fixpoint filepath_Ext_scan (path : string) : ext_scan :=
  match path with
  | EmptyString => ExtNone
  | String c rest =>
      match filepath_Ext_scan rest with
      | ExtFound ext => ExtFound ext
      | ExtStopped => ExtStopped
      | ExtNone =>
          if Ascii.eqb c "." then ExtFound path
          else if Ascii.eqb c "/" then ExtStopped
          else ExtNone
      end
  end.

(** [filepath.Ext(path)]: the suffix that begins at the last dot of the
    last element of [path], empty when that element has no dot. *)
Definition filepath_Ext (path : string) : string :=
  match filepath_Ext_scan path with
  | ExtFound ext => ext
  | _ => EmptyString
  end.

(** [strings.ToLower] maps a string that is not all ASCII rune by rune
    through the tables of package [unicode]. *)
Class Unicode : Type := {
  unicode_ToLower : string -> string
}.

Fixpoint isASCII (s : string) : bool :=
  match s with
  | EmptyString => true
  | String c rest => (N_of_ascii c <? 128)%N && isASCII rest
  end.

(** [c += 'a' - 'A'] for a byte [c] in A-Z. *)
Definition lower_byte (c : ascii) : ascii :=
  let n := N_of_ascii c in
  if ((65 <=? n) && (n <=? 90))%N then ascii_of_N (n + 32) else c.

Fixpoint lower_bytes (s : string) : string :=
  match s with
  | EmptyString => EmptyString
  | String c rest => String (lower_byte c) (lower_bytes rest)
  end.

(** [strings.ToLower(s)]: byte by byte when [s] is all ASCII. *)
Definition strings_ToLower {u : Unicode} (s : string) : string :=
  if isASCII s then lower_bytes s else unicode_ToLower s.

Definition shouldCompress {u : Unicode} (path : string) : bool :=
  let ext := strings_ToLower (filepath_Ext path) in
  if decide (ext = ".css" \/ ext = ".js" \/ ext = ".svg" \/ ext = ".html")
  then true else false.

(** The paths [compressFileGzip] and [compressFileBrotli] create. *)
Definition gzPath (filePath : string) : string := filePath +:+ ".gz".
Definition brPath (filePath : string) : string := filePath +:+ ".br".

(** ** Package generator: the pages *)

(** What the generator takes from outside the repository: the file
    system, [path/filepath], the execution of [core.MainTemplate] and the
    HTML minifier. *)
Class GeneratorEnv : Type := {
  FS : Type;
  gerror : Type;
  (** [filepath.Join] of two elements *)
  filepath_Join : string -> string -> string;
  filepath_Dir : string -> string;
  (** [os.MkdirAll(path, perm)]: the file system after the call and the
      error returned *)
  os_MkdirAll : string -> Z -> FS -> FS * option gerror;
  (** [core.MainTemplate.Execute(&buf, data)]: the bytes of the buffer *)
  MainTemplate_Execute : PageData -> gerror + string;
  (** [m.Bytes("text/html", b)] with the HTML minifier *)
  minify_Bytes : string -> gerror + string;
  (** [os.WriteFile(name, data, perm)] *)
  os_WriteFile : string -> string -> Z -> FS -> FS * option gerror
}.

Definition OutputDir : string := "build".

(** [writeHTMLFile]: a minifier that fails is worth a warning in the log,
    and the page is written as rendered. *)
Definition writeHTMLFile {ge : GeneratorEnv} (relativePath : string)
    (data : PageData) (fs : FS) : FS * option gerror :=
  let fullPath := filepath_Join OutputDir relativePath in
  let '(fs, err) := os_MkdirAll (filepath_Dir fullPath) 493 fs in
  match err with
  | Some err => (fs, Some err)
  | None =>
      match MainTemplate_Execute data with
      | inl err => (fs, Some err)
      | inr buf =>
          let minifiedBytes :=
            match minify_Bytes buf with
            | inl _ => buf
            | inr minifiedBytes => minifiedBytes
            end in
          let '(fs, err) := os_WriteFile fullPath minifiedBytes 420 fs in
          match err with
          | Some err => (fs, Some err)
          | None => (fs, None)
          end
      end
  end.

(** The errors of the page generators, one per [fmt.Errorf]. *)
Inductive GenError {ge : GeneratorEnv} : Type :=
  | failed_to_generate_entry (slug : string) (err : gerror)
  | failed_to_generate_letter_page (letter : string) (err : gerror).

Definition generateEntryPage {ge : GeneratorEnv} (g : Globals) (entry : Entry)
    (fs : FS) : run (FS * option GenError) :=
  let entryHTML := RenderEntry entry in
  adj <-! GetAdjacentEntrySlugs g (Slug entry);
  let '(prevSlug, nextSlug) := adj in
  let pageData := CreateEntryPageData (Slug entry) entryHTML prevSlug nextSlug in
  let outputPath := filepath_Join "lema" (Slug entry +:+ ".html") in
  let '(fs, err) := writeHTMLFile outputPath pageData fs in
  match err with
  | Some err => Returns (fs, Some (failed_to_generate_entry (Slug entry) err))
  | None => Returns (fs, None)
  end.

(** The loop of [generateEntryPages] over [core.AllEntries]. *)
Fixpoint generateEntryPages_loop {ge : GeneratorEnv} (g : Globals)
    (entries : list Entry) (fs : FS) : run (FS * option GenError) :=
  match entries with
  | [] => Returns (fs, None)
  | entry :: rest =>
      r <-! generateEntryPage g entry fs;
      let '(fs, err) := r in
      match err with
      | Some err => Returns (fs, Some err)
      | None => generateEntryPages_loop g rest fs
      end
  end.

Definition generateEntryPages {ge : GeneratorEnv} (g : Globals) (fs : FS)
  : run (FS * option GenError) :=
  generateEntryPages_loop g (AllEntries g) fs.

(** The loop of [generateLetterPages] over [core.DictionaryLetters]; a
    letter without entries is passed over. *)
Fixpoint generateLetterPages_loop {ge : GeneratorEnv} (g : Globals)
    (letters : list string) (fs : FS) : run (FS * option GenError) :=
  match letters with
  | [] => Returns (fs, None)
  | letter :: rest =>
      entries <-! GetEntriesByFirstLetter g letter;
      if len entries =? 0 then generateLetterPages_loop g rest fs
      else
        nav <-! GetNavigationLetters g letter;
        let '(prevLetter, nextLetter) := nav in
        let pageData :=
          CreateLetterPageData letter entries prevLetter nextLetter in
        let outputPath := filepath_Join "lletra" (letter +:+ ".html") in
        let '(fs, err) := writeHTMLFile outputPath pageData fs in
        match err with
        | Some err =>
            Returns (fs, Some (failed_to_generate_letter_page letter err))
        | None => generateLetterPages_loop g rest fs
        end
  end.

Definition generateLetterPages {ge : GeneratorEnv} (g : Globals) (fs : FS)
  : run (FS * option GenError) :=
  generateLetterPages_loop g (DictionaryLetters g) fs.

(** ** js/autocomplete.js *)

(** A JavaScript string is the list of its UTF-16 code units.
    [text.replace(/[...]/g, by)] for a class of code units of the basic
    plane and a replacement of one code unit: without the [u] flag the
    expression matches code unit by code unit. *)
Definition replace_class (class : list Z) (by_unit : Z) (text : list Z)
  : list Z :=
  (fun unit => if decide (unit ∈ class) then by_unit else unit) <$> text.

(** [normalizeText]: the five replacements, in their order.  The classes
    hold the precomposed letters U+00E0; U+00E8, U+00E9; U+00ED, U+00EF;
    U+00F2, U+00F3; U+00FA, U+00FC. *)
Definition normalizeText (text : list Z) : list Z :=
  replace_class [250; 252] 117
    (replace_class [242; 243] 111
       (replace_class [237; 239] 105
          (replace_class [232; 233] 101
             (replace_class [224] 97 text)))).

(** The state of one autocomplete: the variables [selectedIndex] and
    [mouseHasMoved] of the closure and the entries whose items are in the
    container, in their order.  The markup of an item is taken to hold no
    element of the class [autocomplete-item] of its own, so that
    [querySelectorAll(".autocomplete-item")] is the list of these items. *)
Record Autocomplete (A : Type) : Type := mkAutocomplete {
  selectedIndex : Z;
  mouseHasMoved : bool;
  shown : list A
}.
Arguments mkAutocomplete {A} _ _ _.
Arguments selectedIndex {A} _.
Arguments mouseHasMoved {A} _.
Arguments shown {A} _.

(** The state when [createAutocomplete] returns. *)
Definition Autocomplete_initial {A} : Autocomplete A :=
  mkAutocomplete (-1) true [].

Inductive Key : Type := ArrowDown | ArrowUp | Enter | Escape | OtherKey.

(** What the listener of [input] gets from the field and from the functions
    of the options, the caller's or the defaults: [customNormalize] throws;
    or the trimmed term is empty; or the filter, the sort or the [slice]
    throws, as the default sort does, at [a[titleKey].startsWith], for a
    caller that gives no [titleKey]; or they give the matches, an array,
    here after [slice(0, maxResults)].  A match is an entry, or [None] for
    [null] and [undefined]. *)
Inductive InputResult (A : Type) : Type :=
  | NormalizeThrows
  | EmptyTerm
  | MatchThrows
  | Matches (matches : list (option A)).
Arguments NormalizeThrows {A}.
Arguments EmptyTerm {A}.
Arguments MatchThrows {A}.
Arguments Matches {A} _.

(** The events the listeners are registered for.  A [mouseenter] or a
    [click] comes with the position of its item. *)
Inductive AutocompleteEvent (A : Type) : Type :=
  | InputEvent (result : InputResult A)
  | KeyDown (key : Key)
  | MouseMove
  | MouseEnter (position : nat)
  | ClickItem (position : nat)
  | ClickOutside.
Arguments InputEvent {A} _.
Arguments KeyDown {A} _.
Arguments MouseMove {A}.
Arguments MouseEnter {A} _.
Arguments ClickItem {A} _.
Arguments ClickOutside {A}.

(** A listener runs to its end, or throws: [items[selectedIndex].click()]
    is a [TypeError] when there is no such item.  [st] is the state the
    listener leaves, [selected] are the entries it has called [onSelect]
    with. *)
Inductive listener_outcome (A : Type) : Type :=
  | Done (st : Autocomplete A) (selected : list A)
  | Throws (st : Autocomplete A).
Arguments Done {A} _ _.
Arguments Throws {A} _.

(** [closeAutocomplete]; the option [onClose] is one that no caller in the
    repository gives. *)
Definition closeAutocomplete {A} (st : Autocomplete A) : Autocomplete A :=
  mkAutocomplete (-1) (mouseHasMoved st) [].

(** [items[position].click()]: the listener of [click] of that item.  What
    [onSelect] does with the entry is the caller's; the state is closed
    before it is called. *)
Definition item_click {A} (st : Autocomplete A) (position : nat)
  : listener_outcome A :=
  match shown st !! position with
  | Some entry => Done (closeAutocomplete st) [entry]
  | None => Throws st
  end.

(** The loop of [displayAutocomplete]: an item is appended for each match,
    up to a match that is [null] or [undefined], where [entry[displayKey]]
    throws.  The result holds the entries of the items appended, and
    whether the loop has come to its end. *)
Fixpoint display_items {A} (matches : list (option A)) : list A * bool :=
  match matches with
  | [] => ([], true)
  | Some entry :: rest =>
      let '(items, ended) := display_items rest in (entry :: items, ended)
  | None :: _ => ([], false)
  end.

Definition autocomplete_step {A} (st : Autocomplete A)
    (ev : AutocompleteEvent A) : listener_outcome A :=
  match ev with
  | InputEvent result =>
      match result with
      | NormalizeThrows => Throws st
      | EmptyTerm =>
          Done (closeAutocomplete (mkAutocomplete (-1) false (shown st))) []
      | MatchThrows => Throws (mkAutocomplete (-1) false (shown st))
      | Matches matches =>
          let st := mkAutocomplete (-1) false (shown st) in
          match matches with
          | [] => Done (closeAutocomplete st) []
          | _ :: _ =>
              let '(items, ended) := display_items matches in
              if ended then Done (mkAutocomplete 0 false items) []
              else Throws (mkAutocomplete (-1) false items)
          end
      end
  | KeyDown key =>
      let st := mkAutocomplete (selectedIndex st) false (shown st) in
      let items := shown st in
      if len items =? 0 then Done st []
      else
        match key with
        | ArrowDown =>
            Done (mkAutocomplete (Z.rem (selectedIndex st + 1) (len items))
                    false items) []
        | ArrowUp =>
            Done (mkAutocomplete
                    (if selectedIndex st <=? 0 then len items - 1
                     else selectedIndex st - 1)
                    false items) []
        | Enter =>
            if (0 <=? selectedIndex st) && (0 <? len items)
            then item_click st (Z.to_nat (selectedIndex st))
            else Done st []
        | Escape => Done (closeAutocomplete st) []
        | OtherKey => Done st []
        end
  | MouseMove => Done (mkAutocomplete (selectedIndex st) true (shown st)) []
  | MouseEnter position =>
      match shown st !! position with
      | Some _ =>
          if mouseHasMoved st
          then Done (mkAutocomplete (Z.of_nat position) true (shown st)) []
          else Done st []
      | None => Done st []
      end
  | ClickItem position =>
      match shown st !! position with
      | Some _ => item_click st position
      | None => Done st []
      end
  | ClickOutside => Done (closeAutocomplete st) []
  end.

(** The state a listener leaves and the entries it has selected, whether
    it has returned or thrown. *)
Definition outcome_state {A} (o : listener_outcome A) : Autocomplete A :=
  match o with
  | Done st _ => st
  | Throws st => st
  end.

Definition outcome_selected {A} (o : listener_outcome A) : list A :=
  match o with
  | Done _ selected => selected
  | Throws _ => []
  end.

(** The events of a session, one listener after the other: what a listener
    throws is reported, and the next event finds the state it has left.
    The result is the last state and the entries selected. *)
Fixpoint autocomplete_run {A} (st : Autocomplete A)
    (evs : list (AutocompleteEvent A)) : Autocomplete A * list A :=
  match evs with
  | [] => (st, [])
  | ev :: evs' =>
      let o := autocomplete_step st ev in
      let '(st', selected) := autocomplete_run (outcome_state o) evs' in
      (st', outcome_selected o ++ selected)
  end.

(** * Part II: the vocabulary of the specification *)

(** ** The index loop in closed form *)

Fixpoint index_of (i : Z) (entries : list Entry) (idx : gmap string Z)
  : gmap string Z :=
  match entries with
  | [] => idx
  | entry :: rest => index_of (i + 1) rest (<[Slug entry := i]> idx)
  end.

Fixpoint letters_of (entries : list Entry) (letterMap : gmap string bool)
  : gmap string bool :=
  match entries with
  | [] => letterMap
  | entry :: rest =>
      letters_of rest
        match NormalizedTitle entry with
        | EmptyString => letterMap
        | String b _ => <[string_of_byte b := true]> letterMap
        end
  end.

(** [entries !! n] is the last entry that carries the slug [s]. *)
Definition last_at (entries : list Entry) (s : string) (n : nat) : Prop :=
  (exists e, entries !! n = Some e /\ Slug e = s) /\
  forall m e', (n < m)%nat -> entries !! m = Some e' -> Slug e' <> s.

Definition slug_free (entries : list Entry) (s : string) : Prop :=
  forall e, e ∈ entries -> Slug e <> s.

(** ** Sorted letters *)

(** Go's [a < b] on strings. *)
Definition string_lt (a b : string) : Prop := String.ltb a b = true.

(** A sequence of strings in strictly increasing order. *)
Definition strictly_sorted (l : list string) : Prop :=
  forall i j a b,
    (i < j)%nat -> l !! i = Some a -> l !! j = Some b -> string_lt a b.

(** The first character of a string, as a string: [s[:1]], a character
    being one byte over the alphabet a-z of the specification. *)
Definition first_character (s : string) : string :=
  match s with
  | EmptyString => EmptyString
  | String b _ => String b EmptyString
  end.

(** The letters are, as a set, the first characters of the non-empty
    normalized titles. *)
Definition letters_are_first_characters (entries : list Entry)
    (letters : list string) : Prop :=
  forall l, l ∈ letters <->
    exists e, e ∈ entries /\ NormalizedTitle e <> EmptyString /\
              l = first_character (NormalizedTitle e).

(** Every non-empty normalized title begins with an ASCII byte. *)
Definition ascii_initials (entries : list Entry) : Prop :=
  forall e b t,
    e ∈ entries -> NormalizedTitle e = String b t -> (N_of_ascii b < 128)%N.

(** ** Entries of a letter *)

(** [s] is non-empty and its first byte is [c]. *)
Definition begins_with (c : ascii) (s : string) : bool :=
  match s with
  | EmptyString => false
  | String b _ => Ascii.eqb b c
  end.

(** The projection of an entry to its slug and display title. *)
Definition projection (e : Entry) : LetterEntry.t :=
  LetterEntry.mk (Slug e) (DisplayTitle e).

(** The entries of the letter [c], as the specification words them: those
    whose normalized title begins with [c], projected, in the order of the
    collection. *)
Definition entries_of_letter (c : ascii) (entries : list Entry)
  : list LetterEntry.t :=
  projection <$> List.filter (fun e => begins_with c (NormalizedTitle e)) entries.

(** A lowercase letter a-z. *)
Definition lowercase (c : ascii) : Prop :=
  (97 <= N_of_ascii c <= 122)%N.

(** ** Entry titles *)

(** [s] with every underscore replaced by a space, byte by byte. *)
Fixpoint underscores_to_spaces (s : string) : string :=
  match s with
  | EmptyString => EmptyString
  | String b s' =>
      String (if Ascii.eqb b "_" then " "%char else b) (underscores_to_spaces s')
  end.

(** ** The expected schema of the data file *)

(** A value a [string] field accepts. *)
Definition string_ok (v : json) : bool :=
  match v with
  | JString _ | JNull => true
  | _ => false
  end.

(** A value a struct accepts: [null], or an object in which every member
    that denotes a declared field holds a value that field accepts.  No
    member is required, and a member that denotes no field is free. *)
Definition struct_ok {env : Environment} (names : list string)
    (field_ok : string -> json -> bool) (v : json) : bool :=
  match v with
  | JNull => true
  | JObject members =>
      forallb
        (fun m => match find_name names m.1 with
                  | Some name => field_ok name m.2
                  | None => true
                  end)
        members
  | _ => false
  end.

Definition slice_ok (elem_ok : json -> bool) (v : json) : bool :=
  match v with
  | JNull => true
  | JArray elements => forallb elem_ok elements
  | _ => false
  end.

Definition map_ok (v : json) : bool :=
  match v with
  | JNull => true
  | JObject members => forallb (fun m => string_ok m.2) members
  | _ => false
  end.

Definition Entry_ok {env : Environment} : json -> bool :=
  struct_ok Entry_names (fun _ => string_ok).

Definition SemanticField_ok {env : Environment} : json -> bool :=
  struct_ok SemanticField_names (fun _ => string_ok).

Definition Data_field_ok {env : Environment} (name : string) : json -> bool :=
  if decide (name = "entries") then slice_ok Entry_ok
  else if decide (name = "semantic_fields") then slice_ok SemanticField_ok
  else map_ok.

(** The document matches the expected schema. *)
Definition Data_ok {env : Environment} : json -> bool :=
  struct_ok Data_names Data_field_ok.

(** ** The content of a document *)

(** The members of an object; [null] has none. *)
Definition members_of (v : json) : list (string * json) :=
  match v with
  | JObject members => members
  | _ => []
  end.

(** The elements of an array; [null] has none. *)
Definition elements_of (v : json) : list json :=
  match v with
  | JArray elements => elements
  | _ => []
  end.

(** The values that [members] give to the field of JSON name [name]: those
    of the members that denote the field, in the order of the text. *)
Definition values_of {env : Environment} (names : list string) (name : string)
    (members : list (string * json)) : list json :=
  omap (fun m => if decide (find_name names m.1 = Some name)
                 then Some m.2 else None)
    members.

(** The string that the values of a field give it: the last of them that
    is a string, and the empty string when none is. *)
Definition string_of (values : list json) : string :=
  default EmptyString
    (last (omap (fun v => match v with JString s => Some s | _ => None end)
             values)).

(** The entry that a list of members describes. *)
Definition entry_of {env : Environment} (members : list (string * json))
  : Entry :=
  mkEntry (string_of (values_of Entry_names "title" members))
    (string_of (values_of Entry_names "title_display" members))
    (string_of (values_of Entry_names "title_normalized" members))
    (string_of (values_of Entry_names "content" members)).

(** The semantic field that a list of members describes. *)
Definition semantic_field_of {env : Environment}
    (members : list (string * json)) : SemanticField :=
  mkSemanticField (string_of (values_of SemanticField_names "title" members))
    (string_of (values_of SemanticField_names "body" members))
    (string_of (values_of SemanticField_names "path" members)).

(** The values of a field that count: those after the last one that
    empties the field. *)
Definition after_reset (resets : json -> bool) (values : list json)
  : list json :=
  foldl (fun acc v => if resets v then [] else acc ++ [v]) [] values.

(** A slice is emptied by [null] and by the empty array, a map by [null]. *)
Definition is_empty (v : json) : bool :=
  match elements_of v with
  | [] => true
  | _ :: _ => false
  end.

Definition is_null (v : json) : bool :=
  match v with
  | JNull => true
  | _ => false
  end.

(** The members that an array holds at position [i]. *)
Definition members_at (i : nat) (array : json) : list (string * json) :=
  match elements_of array !! i with
  | Some x => members_of x
  | None => []
  end.

(** The element of a slice at position [i]: it is described by the members
    that the arrays hold at [i], those of one array after those of the
    array before. *)
Definition element_at {T} (elem_of : list (string * json) -> T)
    (arrays : list json) (i : nat) : T :=
  elem_of (concat (map (members_at i) arrays)).

(** The slice that the values of a field give: it is as long as the last
    array that counts. *)
Definition slice_of {T} (elem_of : list (string * json) -> T)
    (values : list json) : list T :=
  let arrays := after_reset is_empty values in
  element_at elem_of arrays
    <$> seq 0 (length (elements_of (default JNull (last arrays)))).

(** The map that the values of the glossary give: the members of the
    objects that count, a later member over an earlier one of its name. *)
Definition glossary_of (values : list json) : gmap string string :=
  list_to_map
    (reverse ((fun m => (m.1, string_of [m.2]))
                <$> concat (map members_of (after_reset is_null values)))).

(** The three collections of a document. *)
Definition document_entries {env : Environment} (v : json) : list Entry :=
  slice_of entry_of (values_of Data_names "entries" (members_of v)).

Definition document_semantic_fields {env : Environment} (v : json)
  : list SemanticField :=
  slice_of semantic_field_of
    (values_of Data_names "semantic_fields" (members_of v)).

Definition document_glossary {env : Environment} (v : json)
  : gmap string string :=
  glossary_of (values_of Data_names "glossary" (members_of v)).

Definition document_data {env : Environment} (v : json) : Data :=
  mkData (document_entries v) (document_semantic_fields v)
    (document_glossary v).

(** The length of the longest of the arrays. *)
Definition longest (arrays : list json) : nat :=
  foldr (fun a n => Nat.max (length (elements_of a)) n) 0%nat arrays.

(** The slice that the values of a field give, with its backing array: the
    backing array is as long as the longest array that counts. *)
Definition Slice_of {T} (elem_of : list (string * json) -> T)
    (values : list json) : Slice T :=
  let arrays := after_reset is_empty values in
  let n := length (elements_of (default JNull (last arrays))) in
  let backing := element_at elem_of arrays <$> seq 0 (longest arrays) in
  mkSlice (take n backing) (drop n backing).

(** The variable [data] after the members of a document. *)
Definition Decoding_of {env : Environment} (members : list (string * json))
  : Decoding :=
  mkDecoding (Slice_of entry_of (values_of Data_names "entries" members))
    (Slice_of semantic_field_of
       (values_of Data_names "semantic_fields" members))
    (glossary_of (values_of Data_names "glossary" members)).

(** ** Sample data *)

Definition entry_adonar : Entry :=
  mkEntry "adonar-se_(de)" "<i>adonar-se</i> (de)" "adonar-se (de)" "<p>1</p>".
Definition entry_casa : Entry := mkEntry "casa" "Casa" "casa" "<p>2</p>".
Definition entry_cosa : Entry := mkEntry "cosa" "Cosa" "cosa" "<p>3</p>".
Definition entry_quan : Entry := mkEntry "quan" "Quan" "quan" "<p>4</p>".

Definition sample_data : Data :=
  mkData [entry_adonar; entry_casa; entry_cosa; entry_quan] []
    {[ "A" := "<dl>a</dl>"; "C" := "<dl>c</dl>" ]}.

Definition sample_globals : Globals :=
  mkGlobals [entry_adonar; entry_casa; entry_cosa; entry_quan]
    (list_to_map
       [("adonar-se_(de)", 0); ("casa", 1); ("cosa", 2); ("quan", 3)])
    ["a"; "c"; "q"]
    {[ "A" := "<dl>a</dl>"; "C" := "<dl>c</dl>" ]}
    [].

(** A normalized title that begins with c-cedilla, the bytes 0xC3 0xA7 in
    UTF-8: the accent stripping of the export leaves that letter alone. *)
Definition entry_ca : Entry :=
  mkEntry "ca" "Ca"
    (String "195"%char (String "167"%char (String "a"%char EmptyString)))
    "<p>5</p>".

Definition cedilla_data : Data := mkData [entry_ca] [] ∅.

(** [string(0xC3)] is the UTF-8 encoding of U+00C3, the bytes 0xC3 0x83. *)
Definition cedilla_globals : Globals :=
  mkGlobals [entry_ca] {[ "ca" := 0 ]}
    [String "195"%char (String "131"%char EmptyString)] ∅ [].

Definition entry_casa' : Entry := mkEntry "casa" "Casa (2)" "casa" "<p>6</p>".
Definition entry_casa'' : Entry := mkEntry "casa" "Casa (3)" "casa" "<p>7</p>".

Definition twice_data : Data := mkData [entry_casa; entry_casa'] [] ∅.
Definition twice_globals : Globals :=
  mkGlobals [entry_casa; entry_casa'] {[ "casa" := 1 ]} ["c"] ∅ [].

Definition thrice_data : Data :=
  mkData [entry_casa; entry_casa'; entry_casa''] [] ∅.
Definition thrice_globals : Globals :=
  mkGlobals [entry_casa; entry_casa'; entry_casa''] {[ "casa" := 2 ]} ["c"] ∅ [].

Definition entry_untitled : Entry :=
  mkEntry "sense-titol" "Sense t&iacute;tol" "" "<p>8</p>".

Definition untitled_data : Data := mkData [entry_untitled] [] ∅.
Definition untitled_globals : Globals :=
  mkGlobals [entry_untitled] {[ "sense-titol" := 0 ]} [] ∅ [].

(** ** A sample environment *)

Definition ascii_upper (b : ascii) : ascii :=
  let n := N_of_ascii b in
  if ((97 <=? n) && (n <=? 122))%N then ascii_of_N (n - 32) else b.

Fixpoint ascii_fold (s : string) : string :=
  match s with
  | EmptyString => EmptyString
  | String b s' => String (ascii_upper b) (ascii_fold s')
  end.

(** The sample dataset of the specification, with a member more than the
    schema declares; the semantic fields and the glossary are missing. *)
Definition casa_json : json :=
  JObject
    [("version", JNumber "2");
     ("entries",
      JArray
        [JObject
           [("title", JString "casa"); ("title_display", JString "Casa");
            ("title_normalized", JString "casa"); ("content", JString "...")]])].

Definition casa_globals : Globals :=
  mkGlobals [mkEntry "casa" "Casa" "casa" "..."] {[ "casa" := 0 ]} ["c"] ∅ [].

(** A document whose entries are a string, where an array is declared. *)
Definition mistyped_json : json := JObject [("entries", JString "casa")].

(** A document that gives its entries three times, and its glossary twice. *)
Definition repeated_json : json :=
  JObject
    [("entries",
      JArray
        [JObject
           [("title", JString "b"); ("title_display", JString "A");
            ("title_normalized", JString "a"); ("content", JString "x")];
         JObject [("title", JString "d")]]);
     ("glossary", JObject [("A", JString "<dl>a</dl>"); ("C", JNull)]);
     ("entries", JArray [JObject [("title", JString "c")]]);
     ("Glossary", JObject [("A", JString "<dl>b</dl>")]);
     ("entries", JArray [JNull; JObject [("content", JString "y")]])].

Definition repeated_globals : Globals :=
  mkGlobals [mkEntry "c" "A" "a" "x"; mkEntry "d" "" "" "y"]
    {[ "c" := 0; "d" := 1 ]} ["a"]
    {[ "A" := "<dl>b</dl>"; "C" := "" ]} [].

(** Five files: two good ones, one that is not gzip, one whose stream ends
    early and one whose document is mistyped. *)
Definition sample_env : Environment := {|
  error := string;
  File := nat;
  Reader := nat;
  os_Open p :=
    if decide (p = "data/data.json.gz") then inr 0%nat
    else if decide (p = "data/plain.json") then inr 1%nat
    else if decide (p = "data/truncated.json.gz") then inr 2%nat
    else if decide (p = "data/mistyped.json.gz") then inr 3%nat
    else if decide (p = "data/repeated.json.gz") then inr 4%nat
    else inl "no such file or directory";
  gzip_NewReader f :=
    if decide (f = 1%nat) then inl "gzip: invalid header" else inr f;
  read_value r :=
    match r with
    | 0%nat => inr casa_json
    | 3%nat => inr mistyped_json
    | 4%nat => inr repeated_json
    | _ => inl "unexpected EOF"
    end;
  foldName := ascii_fold
|}.


(** ** Sample semantic fields *)

Definition field_casa : SemanticField :=
  mkSemanticField "La casa" "<p>casa</p>" "la-casa".
Definition field_casa' : SemanticField :=
  mkSemanticField "La casa (2)" "<p>casa 2</p>" "la-casa".
Definition field_temps : SemanticField :=
  mkSemanticField "El temps" "<p>temps</p>" "el-temps".

Definition fields_globals : Globals :=
  mkGlobals [] ∅ [] ∅ [field_temps; field_casa; field_casa'].

(** ** The pages of the static site *)

(** Pages to write, each with the name its error would carry and its
    path: they are written in order, up to the first one that fails. *)
Fixpoint write_pages {ge : GeneratorEnv} (wrap : string -> gerror -> GenError)
    (jobs : list (string * string * PageData)) (fs : FS)
  : FS * option GenError :=
  match jobs with
  | [] => (fs, None)
  | (name, path, data) :: rest =>
      let '(fs, err) := writeHTMLFile path data fs in
      match err with
      | Some err => (fs, Some (wrap name err))
      | None => write_pages wrap rest fs
      end
  end.

(** The element before the position [n] of [l], seen through [f], and the
    one after it; the empty string where there is none. *)
Definition before_at {A} (f : A -> string) (l : list A) (n : nat) : string :=
  match n with
  | O => EmptyString
  | S m => from_option f EmptyString (l !! m)
  end.

Definition after_at {A} (f : A -> string) (l : list A) (n : nat) : string :=
  from_option f EmptyString (l !! S n).

(** The entry pages of [rest], the entries of [entries] from the position
    [n] on: one page per entry, at [lema/<slug>.html], that links to the
    entries before and after it. *)
Fixpoint entry_jobs_from {ge : GeneratorEnv} (entries : list Entry) (n : nat)
    (rest : list Entry) : list (string * string * PageData) :=
  match rest with
  | [] => []
  | e :: rest' =>
      (Slug e, filepath_Join "lema" (Slug e +:+ ".html"),
       CreateEntryPageData (Slug e) (RenderEntry e)
         (before_at Slug entries n) (after_at Slug entries n))
      :: entry_jobs_from entries (S n) rest'
  end.

(** The entries listed under the one-byte letter [l]. *)
Definition entries_of (l : string) (entries : list Entry)
  : list LetterEntry.t :=
  match l with
  | EmptyString => []
  | String c _ => entries_of_letter c entries
  end.

(** The letter pages of [rest], the letters of [letters] from the
    position [j] on: one page per letter, at [lletra/<letter>.html]. *)
Fixpoint letter_jobs_from {ge : GeneratorEnv} (entries : list Entry)
    (letters : list string) (j : nat) (rest : list string)
  : list (string * string * PageData) :=
  match rest with
  | [] => []
  | l :: rest' =>
      (l, filepath_Join "lletra" (l +:+ ".html"),
       CreateLetterPageData l (entries_of l entries)
         (before_at id letters j) (after_at id letters j))
      :: letter_jobs_from entries letters (S j) rest'
  end.

(** [e] holds neither a dot nor a path separator. *)
Fixpoint plain_name (e : string) : bool :=
  match e with
  | EmptyString => true
  | String c rest =>
      negb (Ascii.eqb c ".") && negb (Ascii.eqb c "/") && plain_name rest
  end.

(** ** A sample generator *)

(** A file system that is the list of the files written, the last one
    first; a template that renders the title of the page; a minifier that
    fails; a directory that cannot be written to. *)
Definition sample_generator : GeneratorEnv := {|
  FS := list (string * string);
  gerror := string;
  filepath_Join a b := (a +:+ "/" +:+ b)%string;
  filepath_Dir p := p;
  os_MkdirAll p perm fs := (fs, None);
  MainTemplate_Execute data := inr (PlainTextTitle data);
  minify_Bytes b := inl "minify: unexpected token";
  os_WriteFile name content perm fs :=
    if decide (name = "build/lema/cosa.html")
    then (fs, Some "permission denied")
    else ((name, content) :: fs, None)
|}.

(** Case folding left to the ASCII bytes. *)
Definition sample_unicode : Unicode := {| unicode_ToLower s := s |}.

(** ** The autocomplete *)

(** The accented vowels [normalizeText] replaces, as code units. *)
Definition accented_vowels : list Z :=
  [224; 232; 233; 237; 239; 242; 243; 250; 252].

(** Each accented vowel with its vowel: a for a-grave; e for e-grave and
    e-acute; i for i-acute and i-diaeresis; o for o-grave and o-acute; u
    for u-acute and u-diaeresis. *)
Definition vowel_of_accented : list (Z * Z) :=
  [(224, 97); (232, 101); (233, 101); (237, 105); (239, 105);
   (242, 111); (243, 111); (250, 117); (252, 117)].

(** A code unit without its accent: the vowel of an accented vowel, and
    any other code unit itself. *)
Definition unaccented (unit : Z) : Z :=
  match List.find (fun p => p.1 =? unit) vowel_of_accented with
  | Some p => p.2
  | None => unit
  end.

(** The list is closed and nothing is selected, or an item of the list is
    selected. *)
Definition selection_ok {A} (st : Autocomplete A) : Prop :=
  (shown st = [] /\ selectedIndex st = -1) \/
  (0 <= selectedIndex st < len (shown st)).

(** Nothing is selected, or an item of the list is. *)
Definition selection_in_range {A} (st : Autocomplete A) : Prop :=
  selectedIndex st = -1 \/ 0 <= selectedIndex st < len (shown st).

(** The events whose listener throws: the [input] events whose functions
    throw, or give a match that is [null] or [undefined]. *)
Definition input_throws {A} (ev : AutocompleteEvent A) : bool :=
  match ev with
  | InputEvent NormalizeThrows | InputEvent MatchThrows => true
  | InputEvent (Matches matches) =>
      existsb (fun m => match m with None => true | Some _ => false end)
        matches
  | _ => false
  end.

(** ** Sample data with a title that begins with a digit *)

Definition entry_1r : Entry := mkEntry "1r" "1r" "1r" "<p>9</p>".

Definition digit_data : Data := mkData [entry_1r; entry_casa] [] ∅.
Definition digit_globals : Globals :=
  mkGlobals [entry_1r; entry_casa] {[ "1r" := 0; "casa" := 1 ]} ["1"; "c"]
    ∅ [].

(** * Part III: properties *)

(** ** Indexing *)

Lemma index_lookup {A} (l : list A) (n : nat) (a : A) :
  l !! n = Some a -> index l (Z.of_nat n) = Returns a.
Proof.
  intros Hn. unfold index, len.
  pose proof (lookup_lt_Some _ _ _ Hn) as Hlt.
  replace (Z.of_nat n <? 0) with false by (symmetry; apply Z.ltb_ge; lia).
  replace (Z.of_nat (length l) <=? Z.of_nat n) with false
    by (symmetry; apply Z.leb_gt; lia).
  simpl. by rewrite Nat2Z.id, Hn.
Qed.

Lemma index_Returns {A} (l : list A) (i : Z) (a : A) :
  index l i = Returns a <-> 0 <= i /\ l !! Z.to_nat i = Some a.
Proof.
  split.
  - unfold index. destruct (i <? 0) eqn:Hi; [done|].
    apply Z.ltb_ge in Hi. destruct (len l <=? i); [done|]. simpl.
    destruct (l !! Z.to_nat i) eqn:Hl; [|done]. intros [= ->]. done.
  - intros [Hi Hl]. rewrite <- (Z2Nat.id i) by done. by apply index_lookup.
Qed.

(** ** The index loop *)

Lemma index_loop_Returns (entries : list Entry) :
  forall i idx letterMap,
    index_loop i entries idx letterMap
    = Returns (index_of i entries idx, letters_of entries letterMap).
Proof.
  induction entries as [|entry rest IH]; intros i idx letterMap; [done|].
  simpl. destruct (NormalizedTitle entry) as [|b t]; simpl.
  - apply IH.
  - replace (0 <? strlen (String b t)) with true; [simpl; apply IH|].
    symmetry. apply Z.ltb_lt. unfold strlen. simpl. lia.
Qed.

(** [LoadDataFromFile] never panics once the document is decoded. *)
Lemma publish_Returns (data : Data) :
  publish data
  = Returns (mkGlobals (data_Entries data)
               (index_of 0 (data_Entries data) ∅)
               (slices_Sorted (maps_Keys (letters_of (data_Entries data) ∅)))
               (convertGlossary (data_Glossary data))
               (data_SemanticFields data)).
Proof. unfold publish. by rewrite index_loop_Returns. Qed.

Lemma publish_inv (data : Data) (g : Globals) :
  publish data = Returns g ->
  AllEntries g = data_Entries data /\
  entryIndexBySlug g = index_of 0 (data_Entries data) ∅ /\
  DictionaryLetters g
  = slices_Sorted (maps_Keys (letters_of (data_Entries data) ∅)) /\
  Glossary g = convertGlossary (data_Glossary data) /\
  SemanticFields g = data_SemanticFields data.
Proof. rewrite publish_Returns. by intros [= <-]. Qed.

Lemma last_at_cons_S entry rest s n :
  last_at (entry :: rest) s (S n) <-> last_at rest s n.
Proof.
  unfold last_at. simpl. split; intros [He Hlast]; (split; [done|]).
  - intros m e' Hm. apply (Hlast (S m)). lia.
  - intros [|m] e' Hm; [lia|]. simpl. apply Hlast. lia.
Qed.

Lemma last_at_cons_O entry rest s :
  last_at (entry :: rest) s O <-> Slug entry = s /\ slug_free rest s.
Proof.
  unfold last_at, slug_free. simpl. split.
  - intros [(e & [= <-] & Hs) Hlast]. split; [done|].
    intros e' [m Hm]%list_elem_of_lookup. apply (Hlast (S m)); [lia|done].
  - intros [Hs Hfree]. split; [eauto|].
    intros [|m] e' Hm Hl; [lia|]. apply Hfree.
    apply list_elem_of_lookup. eauto.
Qed.

Lemma slug_free_cons entry rest s :
  slug_free (entry :: rest) s <-> Slug entry <> s /\ slug_free rest s.
Proof.
  unfold slug_free. split.
  - intros H. split; [apply H; left|]. intros e He. apply H. by right.
  - intros [H1 H2] e [->|He]%elem_of_cons; auto.
Qed.

Lemma index_of_spec (entries : list Entry) :
  forall i idx s k,
    index_of i entries idx !! s = Some k <->
    (exists n, last_at entries s n /\ k = i + Z.of_nat n) \/
    (slug_free entries s /\ idx !! s = Some k).
Proof.
  induction entries as [|entry rest IH]; intros i idx s k; simpl.
  - split.
    + intros Hk. right. split; [|done]. intros e He. by apply elem_of_nil in He.
    + intros [(n & [(e & He & _) _] & _)|[_ Hk]]; [|done].
      by rewrite lookup_nil in He.
  - rewrite IH. split.
    + intros [(n & Hn & ->)|[Hfree Hk]].
      * left. exists (S n). rewrite last_at_cons_S. split; [done|lia].
      * destruct (decide (Slug entry = s)) as [Hs|Hs].
        -- rewrite Hs, lookup_insert_eq in Hk. injection Hk as <-.
           left. exists O. rewrite last_at_cons_O. split; [done|lia].
        -- rewrite lookup_insert_ne in Hk by done.
           right. by rewrite slug_free_cons.
    + intros [(n & Hn & ->)|[Hfree Hk]].
      * destruct n as [|n].
        -- apply last_at_cons_O in Hn as [Hs Hfree]. right. split; [done|].
           rewrite Hs, lookup_insert_eq. f_equal. lia.
        -- apply last_at_cons_S in Hn. left. exists n. split; [done|lia].
      * apply slug_free_cons in Hfree as [Hs Hfree]. right. split; [done|].
        by rewrite lookup_insert_ne.
Qed.

Lemma index_of_empty_spec (entries : list Entry) (s : string) (k : Z) :
  index_of 0 entries ∅ !! s = Some k <->
  exists n, last_at entries s n /\ k = Z.of_nat n.
Proof.
  rewrite index_of_spec. split.
  - intros [(n & Hn & ->)|[_ Hk]]; [by exists n|]. by rewrite lookup_empty in Hk.
  - intros (n & Hn & ->). left. by exists n.
Qed.

Lemma last_at_exists (entries : list Entry) (s : string) :
  Exists (fun e => Slug e = s) entries -> exists m, last_at entries s m.
Proof.
  induction entries as [|entry rest IH]; intros Hex.
  - by apply Exists_nil in Hex.
  - destruct (decide (Exists (fun e => Slug e = s) rest)) as [Hrest|Hrest].
    + destruct (IH Hrest) as [m Hm]. exists (S m). by apply last_at_cons_S.
    + apply Exists_cons in Hex as [Hs|Hex]; [|done].
      exists O. apply last_at_cons_O. split; [done|].
      intros e He Hse. apply Hrest, Exists_exists. eauto.
Qed.

Lemma index_of_empty_None (entries : list Entry) (s : string) :
  index_of 0 entries ∅ !! s = None <-> slug_free entries s.
Proof.
  split.
  - intros Hnone e He Hs.
    destruct (last_at_exists entries s) as [m Hm].
    { apply Exists_exists. eauto. }
    assert (index_of 0 entries ∅ !! s = Some (Z.of_nat m)) as Hsome.
    { apply index_of_empty_spec. eauto. }
    congruence.
  - intros Hfree. destruct (index_of 0 entries ∅ !! s) as [k|] eqn:Hk; [|done].
    apply index_of_empty_spec in Hk as (n & [(e & He & Hs) _] & _).
    exfalso. apply (Hfree e); [|done]. apply list_elem_of_lookup. eauto.
Qed.

(** Every position stored in the index of a loaded state is a position of
    [AllEntries], and the entry there carries the slug. *)
Lemma entryIndexBySlug_in_range (data : Data) (g : Globals) s i :
  publish data = Returns g ->
  entryIndexBySlug g !! s = Some i ->
  0 <= i < len (AllEntries g) /\
  exists e, AllEntries g !! Z.to_nat i = Some e /\ Slug e = s.
Proof.
  intros (Hall & Hidx & _)%publish_inv Hi. rewrite Hall. rewrite Hidx in Hi.
  apply index_of_empty_spec in Hi as (n & [(e & He & Hs) _] & ->).
  pose proof (lookup_lt_Some _ _ _ He). unfold len.
  rewrite Nat2Z.id. split; [lia|eauto].
Qed.

Lemma publish_sample : publish sample_data = Returns sample_globals.
Proof. vm_compute. reflexivity. Qed.

(** ** Adjacent entries *)

(** C1. In a loaded state, [GetAdjacentEntrySlugs slug] returns two empty
    strings when [slug] is no key of [entryIndexBySlug]; when the index maps
    [slug] to the position [i], that position is one of [AllEntries] and the
    call returns the slug at [i-1], or the empty string when [i = 0],
    and the slug at [i+1], or the empty string when [i] is the last
    position.  No access is out of range. *)
Theorem GetAdjacentEntrySlugs_spec (data : Data) (g : Globals) (slug : string) :
  publish data = Returns g ->
  (entryIndexBySlug g !! slug = None ->
   GetAdjacentEntrySlugs g slug = Returns (EmptyString, EmptyString)) /\
  (forall i, entryIndexBySlug g !! slug = Some i ->
     0 <= i < len (AllEntries g) /\
     exists prev next,
       GetAdjacentEntrySlugs g slug = Returns (prev, next) /\
       ((i = 0 /\ prev = EmptyString) \/
        (0 < i /\ exists e,
           AllEntries g !! Z.to_nat (i - 1) = Some e /\ prev = Slug e)) /\
       ((i = len (AllEntries g) - 1 /\ next = EmptyString) \/
        (i < len (AllEntries g) - 1 /\ exists e,
           AllEntries g !! Z.to_nat (i + 1) = Some e /\ next = Slug e))).
Proof.
  intros Hload. unfold GetAdjacentEntrySlugs. split.
  - by intros ->.
  - intros i Hi. rewrite Hi.
    destruct (entryIndexBySlug_in_range data g slug i Hload Hi) as [Hrange _].
    split; [done|].
    assert (forall j, 0 <= j < len (AllEntries g) ->
              exists e, AllEntries g !! Z.to_nat j = Some e /\
                        index (AllEntries g) j = Returns e) as Hget.
    { intros j Hj.
      destruct (lookup_lt_is_Some_2 (AllEntries g) (Z.to_nat j)) as [e He].
      { unfold len in Hj. lia. }
      exists e. split; [done|]. apply index_Returns. split; [lia|done]. }
    destruct (0 <? i) eqn:Hprev; destruct (i <? len (AllEntries g) - 1) eqn:Hnext;
      [apply Z.ltb_lt in Hprev|apply Z.ltb_lt in Hprev|
       apply Z.ltb_ge in Hprev|apply Z.ltb_ge in Hprev];
      [apply Z.ltb_lt in Hnext|apply Z.ltb_ge in Hnext|
       apply Z.ltb_lt in Hnext|apply Z.ltb_ge in Hnext].
    + destruct (Hget (i - 1)) as (p & Hp & ->); [lia|].
      destruct (Hget (i + 1)) as (n & Hn & ->); [lia|].
      exists (Slug p), (Slug n). simpl.
      split; [done|]. split; right; (split; [lia|eauto]).
    + destruct (Hget (i - 1)) as (p & Hp & ->); [lia|].
      exists (Slug p), EmptyString. simpl.
      split; [done|]. split; [right; split; [lia|eauto]|left; split; [lia|done]].
    + destruct (Hget (i + 1)) as (n & Hn & ->); [lia|].
      exists EmptyString, (Slug n). simpl.
      split; [done|]. split; [left; split; [lia|done]|right; split; [lia|eauto]].
    + exists EmptyString, EmptyString. simpl.
      split; [done|]. split; left; (split; [lia|done]).
Qed.

Lemma GetAdjacentEntrySlugs_spec_witness :
  publish sample_data = Returns sample_globals /\
  entryIndexBySlug sample_globals !! "casa" = Some 1 /\
  GetAdjacentEntrySlugs sample_globals "casa"
  = Returns ("adonar-se_(de)", "cosa").
Proof.
  split; [exact publish_sample|]. split; [reflexivity|].
  destruct (GetAdjacentEntrySlugs_spec sample_data sample_globals "casa"
              publish_sample) as [_ H].
  destruct (H 1 eq_refl) as (_ & prev & next & Hcall & Hprev & Hnext).
  rewrite Hcall.
  destruct Hprev as [[Hi _]|(_ & e & He & ->)]; [discriminate Hi|].
  destruct Hnext as [[Hi _]|(_ & e' & He' & ->)]; [discriminate Hi|].
  injection He as <-. injection He' as <-. reflexivity.
Defined.

(** ** Sorted keys *)

Lemma string_lt_le_ne (a b : string) :
  string_lt a b <-> String.le a b /\ a <> b.
Proof.
  unfold string_lt, String.le, String.ltb, String.leb.
  destruct (String.compare a b) eqn:Hc; simpl.
  - apply String.compare_eq_iff in Hc. split; [done|]. by intros [_ ?].
  - split; [|done]. intros _. split; [done|]. intros ->.
    pose proof (String.compare_antisym b b) as Hanti.
    rewrite Hc in Hanti. discriminate Hanti.
  - split; [done|]. by intros [? _].
Qed.

Lemma StronglySorted_lookup {A} (R : relation A) (l : list A) :
  StronglySorted R l ->
  forall i j a b, (i < j)%nat -> l !! i = Some a -> l !! j = Some b -> R a b.
Proof.
  induction 1 as [|x l Hsorted IH Hall]; intros i j a b Hij Hi Hj.
  - by rewrite lookup_nil in Hi.
  - destruct j as [|j]; [lia|]. simpl in Hj. destruct i as [|i].
    + injection Hi as <-. rewrite Forall_forall in Hall. apply Hall.
      apply list_elem_of_lookup. eauto.
    + simpl in Hi. apply (IH i j); [lia|done..].
Qed.

Lemma slices_Sorted_spec (keys : list string) :
  NoDup keys ->
  strictly_sorted (slices_Sorted keys) /\
  NoDup (slices_Sorted keys) /\
  forall x, x ∈ slices_Sorted keys <-> x ∈ keys.
Proof.
  intros Hnodup. unfold slices_Sorted.
  pose proof (merge_sort_Permutation String.le keys) as Hperm.
  assert (NoDup (merge_sort String.le keys)) as Hnd by by rewrite Hperm.
  split; [|split; [done|]].
  - intros i j a b Hij Hi Hj. apply string_lt_le_ne. split.
    + eapply (StronglySorted_lookup String.le); [|exact Hij|done..].
      apply StronglySorted_merge_sort; apply _.
    + intros ->. assert (i = j) by by eapply NoDup_lookup. lia.
  - intros x. by rewrite Hperm.
Qed.

Lemma elem_of_maps_Keys {V} (m : gmap string V) (x : string) :
  x ∈ maps_Keys m <-> is_Some (m !! x).
Proof.
  unfold maps_Keys. rewrite list_elem_of_fmap. split.
  - intros ([k v] & -> & Hkv). apply elem_of_map_to_list in Hkv. by exists v.
  - intros [v Hv]. exists (x, v). split; [done|]. by apply elem_of_map_to_list.
Qed.

Lemma sorted_keys_spec {V} (m : gmap string V) :
  strictly_sorted (slices_Sorted (maps_Keys m)) /\
  NoDup (slices_Sorted (maps_Keys m)) /\
  forall x, x ∈ slices_Sorted (maps_Keys m) <-> is_Some (m !! x).
Proof.
  destruct (slices_Sorted_spec (maps_Keys m)) as (Hs & Hnd & Hin).
  { apply NoDup_fst_map_to_list. }
  split; [done|]. split; [done|]. intros x. by rewrite Hin, elem_of_maps_Keys.
Qed.

(** ** The letters *)

Lemma letters_of_spec (entries : list Entry) :
  forall letterMap l,
    is_Some (letters_of entries letterMap !! l) <->
    is_Some (letterMap !! l) \/
    exists e b t,
      e ∈ entries /\ NormalizedTitle e = String b t /\ l = string_of_byte b.
Proof.
  induction entries as [|entry rest IH]; intros letterMap l; simpl.
  - split; [by left|]. intros [H|(e & b & t & He & _)]; [done|].
    by apply elem_of_nil in He.
  - rewrite IH. split.
    + intros [Hl|(e & b & t & He & Ht & ->)].
      * destruct (NormalizedTitle entry) as [|b t] eqn:Hnt; [by left|].
        destruct (decide (string_of_byte b = l)) as [<-|Hne].
        -- right. exists entry, b, t. split; [left|done].
        -- rewrite lookup_insert_ne in Hl by done. by left.
      * right. exists e, b, t. split; [by right|done].
    + intros [Hl|(e & b & t & He & Ht & ->)].
      * left. destruct (NormalizedTitle entry) as [|b t]; [done|].
        destruct (decide (string_of_byte b = l)) as [<-|Hne].
        -- by rewrite lookup_insert_eq.
        -- by rewrite lookup_insert_ne.
      * apply elem_of_cons in He as [->|He].
        -- left. rewrite Ht. by rewrite lookup_insert_eq.
        -- right. by exists e, b, t.
Qed.

(** The letters of a loaded state: strictly sorted, without duplicates, and
    made of the conversions [string(NormalizedTitle[0])]. *)
Lemma DictionaryLetters_spec (data : Data) (g : Globals) :
  publish data = Returns g ->
  strictly_sorted (DictionaryLetters g) /\
  NoDup (DictionaryLetters g) /\
  forall l, l ∈ DictionaryLetters g <->
    exists e b t,
      e ∈ data_Entries data /\ NormalizedTitle e = String b t /\
      l = string_of_byte b.
Proof.
  intros (_ & _ & -> & _)%publish_inv.
  destruct (sorted_keys_spec (letters_of (data_Entries data) ∅))
    as (Hs & Hnd & Hin).
  split; [done|]. split; [done|]. intros l. rewrite Hin, letters_of_spec.
  split; [|by right]. intros [H|H]; [|done].
  rewrite lookup_empty in H. by destruct H.
Qed.

Lemma string_of_byte_ascii (b : ascii) :
  (N_of_ascii b < 128)%N -> string_of_byte b = String b EmptyString.
Proof. intros Hb. unfold string_of_byte. by apply N.ltb_lt in Hb as ->. Qed.

(** C2 (as amended). After index construction over any entries,
    [DictionaryLetters] is strictly sorted and has no duplicates; when every
    non-empty [NormalizedTitle] begins with an ASCII byte, it equals, as a
    set, the first characters of the non-empty normalized titles. *)
Theorem DictionaryLetters_sorted_first_characters (data : Data) (g : Globals) :
  publish data = Returns g ->
  strictly_sorted (DictionaryLetters g) /\
  NoDup (DictionaryLetters g) /\
  (ascii_initials (data_Entries data) ->
   letters_are_first_characters (data_Entries data) (DictionaryLetters g)).
Proof.
  intros Hload.
  destruct (DictionaryLetters_spec data g Hload) as (Hs & Hnd & Hin).
  split; [done|]. split; [done|]. intros Hascii l. rewrite Hin. split.
  - intros (e & b & t & He & Ht & ->). exists e. rewrite Ht.
    split; [done|]. split; [done|]. simpl.
    apply string_of_byte_ascii. by eapply Hascii.
  - intros (e & He & Hne & ->).
    destruct (NormalizedTitle e) as [|b t] eqn:Ht; [done|].
    exists e, b, t. split; [done|]. split; [done|]. simpl. symmetry.
    apply string_of_byte_ascii. by eapply Hascii.
Qed.

Lemma ascii_initials_sample : ascii_initials (data_Entries sample_data).
Proof.
  intros e b t He Ht. simpl in He.
  repeat (apply elem_of_cons in He as [->|He]);
    [injection Ht as <- _; reflexivity..|].
  by apply elem_of_nil in He.
Qed.

Lemma DictionaryLetters_sorted_first_characters_witness :
  publish sample_data = Returns sample_globals /\
  ascii_initials (data_Entries sample_data) /\
  strictly_sorted (DictionaryLetters sample_globals) /\
  NoDup (DictionaryLetters sample_globals) /\
  letters_are_first_characters (data_Entries sample_data)
    (DictionaryLetters sample_globals).
Proof.
  split; [exact publish_sample|]. split; [exact ascii_initials_sample|].
  destruct (DictionaryLetters_sorted_first_characters sample_data
              sample_globals publish_sample) as (Hs & Hnd & Hset).
  split; [exact Hs|]. split; [exact Hnd|]. exact (Hset ascii_initials_sample).
Defined.

(** C2, counterexample. For one entry whose normalized title begins with
    c-cedilla the only letter is the two-byte string 0xC3 0x83: it is not
    the first character of the title, and not even a prefix of it. *)
Lemma DictionaryLetters_first_characters_counterexample :
  publish cedilla_data = Returns cedilla_globals /\
  DictionaryLetters cedilla_globals
  = [String "195"%char (String "131"%char EmptyString)] /\
  String.prefix (String "195"%char (String "131"%char EmptyString))
    (NormalizedTitle entry_ca) = false /\
  ~ letters_are_first_characters (data_Entries cedilla_data)
      (DictionaryLetters cedilla_globals).
Proof.
  split; [by vm_compute|]. split; [done|]. split; [done|].
  intros Hset.
  destruct (Hset (String "195"%char (String "131"%char EmptyString)))
    as [Hin _].
  destruct Hin as (e & He & _ & Heq); [simpl; left|].
  simpl in He. apply list_elem_of_singleton in He as ->. discriminate Heq.
Qed.

(** ** Lookup by slug *)

Lemma NoDup_slug_last_at (entries : list Entry) (n : nat) (e : Entry) :
  NoDup (Slug <$> entries) -> entries !! n = Some e ->
  last_at entries (Slug e) n.
Proof.
  intros Hnd Hn. split; [eauto|]. intros m e' Hm Hm' Hs.
  assert (n = m); [|lia].
  apply (NoDup_lookup (Slug <$> entries) n m (Slug e)); [done|..].
  - by rewrite list_lookup_fmap, Hn.
  - by rewrite list_lookup_fmap, Hm', <- Hs.
Qed.

(** C3. When the slugs of the loaded entries are pairwise distinct, every
    loaded entry is found again through its slug: the index holds a
    position for the slug, the entry at that position is the entry itself,
    and [RenderEntryBySlug] succeeds with its rendering. *)
Theorem RenderEntryBySlug_finds_entry (data : Data) (g : Globals) (e : Entry) :
  publish data = Returns g ->
  NoDup (Slug <$> data_Entries data) ->
  e ∈ data_Entries data ->
  exists i,
    entryIndexBySlug g !! Slug e = Some i /\
    index (AllEntries g) i = Returns e /\
    RenderEntryBySlug g (Slug e) = Returns (RenderEntry e, true).
Proof.
  intros (Hall & Hidx & _)%publish_inv Hnd [n Hn]%list_elem_of_lookup.
  exists (Z.of_nat n).
  assert (entryIndexBySlug g !! Slug e = Some (Z.of_nat n)) as Hi.
  { rewrite Hidx. apply index_of_empty_spec. exists n.
    split; [|done]. by apply NoDup_slug_last_at. }
  assert (index (AllEntries g) (Z.of_nat n) = Returns e) as He.
  { rewrite Hall. by apply index_lookup. }
  split; [done|]. split; [done|].
  unfold RenderEntryBySlug. by rewrite Hi, He.
Qed.

Lemma RenderEntryBySlug_finds_entry_witness :
  publish sample_data = Returns sample_globals /\
  NoDup (Slug <$> data_Entries sample_data) /\
  entry_cosa ∈ data_Entries sample_data /\
  exists i,
    entryIndexBySlug sample_globals !! Slug entry_cosa = Some i /\
    index (AllEntries sample_globals) i = Returns entry_cosa /\
    RenderEntryBySlug sample_globals (Slug entry_cosa)
    = Returns (RenderEntry entry_cosa, true).
Proof.
  assert (NoDup (Slug <$> data_Entries sample_data)) as Hnd.
  { compute_done. }
  assert (entry_cosa ∈ data_Entries sample_data) as Hin.
  { simpl. right. right. left. }
  split; [exact publish_sample|]. split; [exact Hnd|]. split; [exact Hin|].
  exact (RenderEntryBySlug_finds_entry sample_data sample_globals entry_cosa
           publish_sample Hnd Hin).
Defined.

(** ** Duplicate slugs *)

Lemma last_at_unique (entries : list Entry) (s : string) (n m : nat) :
  last_at entries s n -> last_at entries s m -> n = m.
Proof.
  intros [(e & He & Hs) Hn] [(e' & He' & Hs') Hm].
  destruct (Nat.lt_trichotomy n m) as [Hlt|[Heq|Hgt]]; [|done|].
  - by destruct (Hn m e' Hlt He').
  - by destruct (Hm n e Hgt He).
Qed.

(** C8 (as amended). When the entries at the positions [i < j] carry the
    same slug, the index maps that slug to the position [k] of the last
    entry that carries it: [k] is at least [j], so never [i], and it is [j]
    when no entry after [j] carries the slug. *)
Theorem duplicate_slug_last_position_wins
    (data : Data) (g : Globals) (i j : nat) (e1 e2 : Entry) :
  publish data = Returns g ->
  (i < j)%nat ->
  data_Entries data !! i = Some e1 ->
  data_Entries data !! j = Some e2 ->
  Slug e1 = Slug e2 ->
  exists k,
    entryIndexBySlug g !! Slug e1 = Some (Z.of_nat k) /\
    last_at (data_Entries data) (Slug e1) k /\
    (j <= k)%nat /\
    ((forall m e', (j < m)%nat -> data_Entries data !! m = Some e' ->
                   Slug e' <> Slug e1) -> k = j).
Proof.
  intros (_ & Hidx & _)%publish_inv Hij Hi Hj Hs.
  destruct (last_at_exists (data_Entries data) (Slug e1)) as [k Hk].
  { apply Exists_exists. exists e1. split; [|done].
    apply list_elem_of_lookup. eauto. }
  exists k. split; [|split; [done|split]].
  - rewrite Hidx. apply index_of_empty_spec. eauto.
  - destruct Hk as [_ Hlast]. destruct (decide (j <= k)%nat) as [|Hlt]; [done|].
    destruct (Hlast j e2); [lia|done|done].
  - intros Hnone. apply (last_at_unique (data_Entries data) (Slug e1)); [done|].
    split; [eauto|done].
Qed.

Lemma duplicate_slug_last_position_wins_witness :
  publish twice_data = Returns twice_globals /\
  (0 < 1)%nat /\
  data_Entries twice_data !! 0%nat = Some entry_casa /\
  data_Entries twice_data !! 1%nat = Some entry_casa' /\
  Slug entry_casa = Slug entry_casa' /\
  entryIndexBySlug twice_globals !! "casa" = Some 1.
Proof.
  assert (publish twice_data = Returns twice_globals) as Hload
    by (vm_compute; reflexivity).
  repeat (split; [first [exact Hload | lia | reflexivity]|]).
  destruct (duplicate_slug_last_position_wins twice_data twice_globals
              0%nat 1%nat entry_casa entry_casa' Hload)
    as (k & Hk & _ & _ & Hlast); [lia|reflexivity..|].
  rewrite Hlast in Hk; [exact Hk|].
  intros [|[|[|m]]] e' Hm He'; try lia; discriminate He'.
Defined.

(** C8, counterexample. Three entries carry the slug [casa]; those at the
    positions 0 and 1 carry the same slug, yet the index maps it to 2. *)
Lemma duplicate_slug_counterexample :
  publish thrice_data = Returns thrice_globals /\
  (0 < 1)%nat /\
  (Slug <$> data_Entries thrice_data !! 0%nat) = Some "casa" /\
  (Slug <$> data_Entries thrice_data !! 1%nat) = Some "casa" /\
  entryIndexBySlug thrice_globals !! "casa" = Some 2 /\
  entryIndexBySlug thrice_globals !! "casa" <> Some 1.
Proof.
  split; [vm_compute; reflexivity|]. split; [lia|].
  repeat (split; [reflexivity|]). discriminate.
Qed.

(** ** Entries of a letter *)

Lemma GetEntriesByFirstLetter_loop_Returns (rest : list Entry) (c : ascii)
    (t : string) :
  forall acc,
    GetEntriesByFirstLetter_loop rest (String c t) acc
    = Returns (acc ++ entries_of_letter c rest).
Proof.
  unfold entries_of_letter.
  induction rest as [|entry rest IH]; intros acc; simpl.
  - by rewrite app_nil_r.
  - destruct (NormalizedTitle entry) as [|b s]; simpl.
    + apply IH.
    + replace (0 <? strlen (String b s)) with true
        by (symmetry; apply Z.ltb_lt; unfold strlen; simpl; lia).
      simpl. rewrite IH. destruct (Ascii.eqb b c); simpl; [|done].
      by rewrite <- app_assoc.
Qed.

(** C4. For a single lowercase letter [c], [GetEntriesByFirstLetter]
    returns exactly the loaded entries whose normalized title is non-empty
    and begins with [c], each projected to its slug and display title, in
    their order in the entry collection. *)
Theorem GetEntriesByFirstLetter_spec (data : Data) (g : Globals) (c : ascii) :
  publish data = Returns g ->
  lowercase c ->
  GetEntriesByFirstLetter g (String c EmptyString)
  = Returns (entries_of_letter c (data_Entries data)).
Proof.
  intros (Hall & _)%publish_inv _. unfold GetEntriesByFirstLetter.
  by rewrite Hall, GetEntriesByFirstLetter_loop_Returns.
Qed.

Lemma GetEntriesByFirstLetter_spec_witness :
  publish sample_data = Returns sample_globals /\
  lowercase "c"%char /\
  GetEntriesByFirstLetter sample_globals "c"
  = Returns [LetterEntry.mk "casa" "Casa"; LetterEntry.mk "cosa" "Cosa"].
Proof.
  assert (lowercase "c"%char) as Hc by (unfold lowercase; simpl; lia).
  split; [exact publish_sample|]. split; [exact Hc|].
  exact (GetEntriesByFirstLetter_spec sample_data sample_globals "c"%char
           publish_sample Hc).
Defined.

(** On the empty string the loop runs to the end when no normalized title
    is non-empty, and panics at the first entry that has one. *)
Lemma GetEntriesByFirstLetter_loop_empty_Returns (rest : list Entry) :
  forall acc,
    Forall (fun e => NormalizedTitle e = EmptyString) rest ->
    GetEntriesByFirstLetter_loop rest EmptyString acc = Returns acc.
Proof.
  induction rest as [|entry rest IH]; intros acc Hall; [done|].
  apply Forall_cons in Hall as [Hhd Hall]. simpl. rewrite Hhd. simpl.
  by apply IH.
Qed.

Lemma GetEntriesByFirstLetter_loop_empty_Panics (rest : list Entry) :
  forall acc,
    Exists (fun e => NormalizedTitle e <> EmptyString) rest ->
    GetEntriesByFirstLetter_loop rest EmptyString acc = Panics.
Proof.
  induction rest as [|entry rest IH]; intros acc Hex.
  - by apply Exists_nil in Hex.
  - simpl. destruct (NormalizedTitle entry) as [|b s] eqn:Hnt; simpl.
    + apply IH. by apply Exists_cons in Hex as [Hhd|Hex].
    + by replace (0 <? strlen (String b s)) with true
        by (symmetry; apply Z.ltb_lt; unfold strlen; simpl; lia).
Qed.

(** C10 (as amended). [GetEntriesByFirstLetter] reads [letter[0]] only for
    an entry whose normalized title is non-empty.  On every non-empty
    argument it returns, so that no access is out of range, and its result
    depends on the first byte of the argument alone.  On the empty string it
    panics exactly when some entry has a non-empty normalized title, and
    returns the empty slice otherwise. *)
Theorem GetEntriesByFirstLetter_domain (g : Globals) :
  (forall b t, exists r,
     GetEntriesByFirstLetter g (String b t) = Returns r) /\
  (forall b t t',
     GetEntriesByFirstLetter g (String b t)
     = GetEntriesByFirstLetter g (String b t')) /\
  (GetEntriesByFirstLetter g EmptyString = Panics <->
   exists e, e ∈ AllEntries g /\ NormalizedTitle e <> EmptyString) /\
  (GetEntriesByFirstLetter g EmptyString = Returns [] <->
   forall e, e ∈ AllEntries g -> NormalizedTitle e = EmptyString).
Proof.
  unfold GetEntriesByFirstLetter. split; [|split].
  - intros b t. rewrite GetEntriesByFirstLetter_loop_Returns. eauto.
  - intros b t t'. by rewrite !GetEntriesByFirstLetter_loop_Returns.
  - destruct (decide (Forall (fun e => NormalizedTitle e = EmptyString)
                        (AllEntries g))) as [Hall|Hnall].
    + rewrite GetEntriesByFirstLetter_loop_empty_Returns by done.
      rewrite Forall_forall in Hall. split; split.
      * discriminate.
      * intros (e & He & Hne). destruct Hne. by apply Hall.
      * intros _. exact Hall.
      * reflexivity.
    + apply not_Forall_Exists in Hnall; [|apply _].
      rewrite GetEntriesByFirstLetter_loop_empty_Panics by done.
      apply Exists_exists in Hnall as (e & He & Hne). split; split.
      * eauto.
      * reflexivity.
      * discriminate.
      * intros Hall. destruct Hne. by apply Hall.
Qed.

Lemma GetEntriesByFirstLetter_domain_witness :
  (GetEntriesByFirstLetter sample_globals EmptyString = Panics) /\
  (GetEntriesByFirstLetter untitled_globals EmptyString = Returns []) /\
  (GetEntriesByFirstLetter sample_globals "q"
   = GetEntriesByFirstLetter sample_globals "quan").
Proof.
  destruct (GetEntriesByFirstLetter_domain sample_globals)
    as (_ & Hfirst & Hpanics & _).
  destruct (GetEntriesByFirstLetter_domain untitled_globals)
    as (_ & _ & _ & Hreturns).
  split; [|split].
  - apply Hpanics. exists entry_casa. split; [|discriminate].
    simpl. right. left.
  - apply Hreturns. intros e He. simpl in He.
    apply list_elem_of_singleton in He as ->. reflexivity.
  - exact (Hfirst "q"%char EmptyString "uan").
Defined.

(** C10, counterexample. In the state loaded from one entry whose
    normalized title is empty, the call on the empty string never evaluates
    [letter[0]]: it returns the empty slice and does not panic. *)
Lemma GetEntriesByFirstLetter_empty_letter_counterexample :
  publish untitled_data = Returns untitled_globals /\
  GetEntriesByFirstLetter untitled_globals EmptyString = Returns [] /\
  GetEntriesByFirstLetter untitled_globals EmptyString <> Panics /\
  byte0 EmptyString = Panics.
Proof.
  split; [vm_compute; reflexivity|]. split; [reflexivity|].
  split; [discriminate|reflexivity].
Qed.

(** ** Adjacent letters *)

Lemma slices_Index_from_notin (s : list string) (v : string) :
  forall i, v ∉ s -> slices_Index_from i s v = -1.
Proof.
  induction s as [|x s IH]; intros i Hv; simpl; [done|].
  apply not_elem_of_cons in Hv as [Hne Hv]. rewrite decide_False by done.
  by apply IH.
Qed.

Lemma slices_Index_from_NoDup (s : list string) (v : string) :
  forall i j, NoDup s -> s !! j = Some v ->
              slices_Index_from i s v = i + Z.of_nat j.
Proof.
  induction s as [|x s IH]; intros i j Hnd Hj; [by rewrite lookup_nil in Hj|].
  apply NoDup_cons in Hnd as [Hx Hnd]. simpl. destruct j as [|j].
  - injection Hj as ->. rewrite decide_True by done. lia.
  - simpl in Hj. rewrite decide_False.
    + rewrite (IH (i + 1) j) by done. lia.
    + intros ->. apply Hx, list_elem_of_lookup. eauto.
Qed.

(** [GetNavigationLetters] over any letter sequence without duplicates. *)
Lemma GetNavigationLetters_NoDup (g : Globals) (l : string) :
  NoDup (DictionaryLetters g) ->
  (forall j, DictionaryLetters g !! j = Some l ->
     exists prev next,
       GetNavigationLetters g l = Returns (prev, next) /\
       ((j = O /\ prev = EmptyString) \/
        (0 < j)%nat /\ DictionaryLetters g !! (j - 1)%nat = Some prev) /\
       ((S j = length (DictionaryLetters g) /\ next = EmptyString) \/
        (S j < length (DictionaryLetters g))%nat /\
        DictionaryLetters g !! S j = Some next)) /\
  (l ∉ DictionaryLetters g ->
   GetNavigationLetters g l = Returns (EmptyString, EmptyString)).
Proof.
  intros Hnd. unfold GetNavigationLetters, slices_Index. split.
  - intros j Hj. rewrite (slices_Index_from_NoDup _ _ 0 j Hnd Hj).
    pose proof (lookup_lt_Some _ _ _ Hj) as Hlt.
    replace (0 + Z.of_nat j <? 0) with false by (symmetry; apply Z.ltb_ge; lia).
    assert (exists prev,
      (if 0 <? 0 + Z.of_nat j
       then index (DictionaryLetters g) (0 + Z.of_nat j - 1)
       else Returns EmptyString) = Returns prev /\
      ((j = O /\ prev = EmptyString) \/
       (0 < j)%nat /\ DictionaryLetters g !! (j - 1)%nat = Some prev))
      as (prev & -> & Hprev).
    { destruct j as [|j].
      - exists EmptyString. split; [done|]. by left.
      - destruct (lookup_lt_is_Some_2 (DictionaryLetters g) j) as [p Hp]; [lia|].
        exists p. replace (0 <? 0 + Z.of_nat (S j)) with true
          by (symmetry; apply Z.ltb_lt; lia).
        replace (0 + Z.of_nat (S j) - 1) with (Z.of_nat j) by lia.
        split; [by apply index_lookup|]. right. split; [lia|].
        by replace (S j - 1)%nat with j by lia. }
    assert (exists next,
      (if 0 + Z.of_nat j <? len (DictionaryLetters g) - 1
       then index (DictionaryLetters g) (0 + Z.of_nat j + 1)
       else Returns EmptyString) = Returns next /\
      ((S j = length (DictionaryLetters g) /\ next = EmptyString) \/
       (S j < length (DictionaryLetters g))%nat /\
       DictionaryLetters g !! S j = Some next))
      as (next & -> & Hnext).
    { unfold len. destruct (decide (S j = length (DictionaryLetters g))) as [Hl|Hl].
      - exists EmptyString.
        replace (0 + Z.of_nat j <? Z.of_nat (length (DictionaryLetters g)) - 1)
          with false by (symmetry; apply Z.ltb_ge; lia).
        split; [done|]. by left.
      - destruct (lookup_lt_is_Some_2 (DictionaryLetters g) (S j)) as [n Hn];
          [lia|].
        exists n.
        replace (0 + Z.of_nat j <? Z.of_nat (length (DictionaryLetters g)) - 1)
          with true by (symmetry; apply Z.ltb_lt; lia).
        replace (0 + Z.of_nat j + 1) with (Z.of_nat (S j)) by lia.
        split; [by apply index_lookup|]. right. split; [lia|done]. }
    exists prev, next. simpl. done.
  - intros Hl. by rewrite slices_Index_from_notin.
Qed.

(** C5. In a loaded state, when [l] stands at the position [j] of the
    sorted letters, [GetNavigationLetters l] returns the letter at [j-1],
    or the empty string when [j = 0], and the letter at [j+1], or the empty
    string when [j] is the last position; when [l] is not among the
    letters it returns two empty strings. *)
Theorem GetNavigationLetters_spec (data : Data) (g : Globals) (l : string) :
  publish data = Returns g ->
  (forall j, DictionaryLetters g !! j = Some l ->
     exists prev next,
       GetNavigationLetters g l = Returns (prev, next) /\
       ((j = O /\ prev = EmptyString) \/
        (0 < j)%nat /\ DictionaryLetters g !! (j - 1)%nat = Some prev) /\
       ((S j = length (DictionaryLetters g) /\ next = EmptyString) \/
        (S j < length (DictionaryLetters g))%nat /\
        DictionaryLetters g !! S j = Some next)) /\
  (l ∉ DictionaryLetters g ->
   GetNavigationLetters g l = Returns (EmptyString, EmptyString)).
Proof.
  intros Hload. apply GetNavigationLetters_NoDup.
  by destruct (DictionaryLetters_spec data g Hload) as (_ & Hnd & _).
Qed.

Lemma GetNavigationLetters_spec_witness :
  publish sample_data = Returns sample_globals /\
  DictionaryLetters sample_globals !! 1%nat = Some "c" /\
  GetNavigationLetters sample_globals "c" = Returns ("a", "q") /\
  ("b" ∉ DictionaryLetters sample_globals) /\
  GetNavigationLetters sample_globals "b" = Returns (EmptyString, EmptyString).
Proof.
  split; [exact publish_sample|]. split; [reflexivity|].
  destruct (GetNavigationLetters_spec sample_data sample_globals "c"
              publish_sample) as [Hin _].
  destruct (GetNavigationLetters_spec sample_data sample_globals "b"
              publish_sample) as [_ Hout].
  assert ("b" ∉ DictionaryLetters sample_globals) as Hb by compute_done.
  split; [|split; [exact Hb|exact (Hout Hb)]].
  destruct (Hin 1%nat eq_refl) as (prev & next & -> & Hprev & Hnext).
  destruct Hprev as [[Hj _]|[_ Hp]]; [discriminate Hj|].
  destruct Hnext as [[Hj _]|[_ Hn]]; [discriminate Hj|].
  injection Hp as <-. injection Hn as <-. reflexivity.
Defined.

(** ** Static pages *)

(** C6. [CreateStaticPageData path title] always sets [PlainTextTitle] to
    [title].  For the path [glossari] its [GlossaryLetters] are the sorted
    keys of [Glossary], a strictly increasing sequence whose members are
    exactly the keys, and its [GlossaryContent] is [Glossary] itself; for
    every other path both fields stay empty. *)
Theorem CreateStaticPageData_spec (g : Globals) (path title : string) :
  PlainTextTitle (CreateStaticPageData g path title) = title /\
  (path = "glossari" ->
   GlossaryLetters (CreateStaticPageData g path title)
   = slices_Sorted (maps_Keys (Glossary g)) /\
   strictly_sorted (GlossaryLetters (CreateStaticPageData g path title)) /\
   (forall l, l ∈ GlossaryLetters (CreateStaticPageData g path title) <->
              is_Some (Glossary g !! l)) /\
   GlossaryContent (CreateStaticPageData g path title) = Glossary g) /\
  (path <> "glossari" ->
   GlossaryLetters (CreateStaticPageData g path title) = [] /\
   GlossaryContent (CreateStaticPageData g path title) = ∅).
Proof.
  unfold CreateStaticPageData.
  destruct (decide (path = "glossari")) as [Hp|Hp]; simpl.
  - split; [done|]. split; [|done]. intros _.
    destruct (sorted_keys_spec (Glossary g)) as (Hs & _ & Hin). done.
  - done.
Qed.

Lemma CreateStaticPageData_spec_witness :
  GlossaryLetters (CreateStaticPageData sample_globals "glossari" "Glossari")
  = ["A"; "C"] /\
  GlossaryContent (CreateStaticPageData sample_globals "glossari" "Glossari")
  = Glossary sample_globals /\
  GlossaryLetters (CreateStaticPageData sample_globals "credits" "Credits")
  = [] /\
  GlossaryContent (CreateStaticPageData sample_globals "credits" "Credits")
  = ∅.
Proof.
  destruct (CreateStaticPageData_spec sample_globals "glossari" "Glossari")
    as (_ & Hglossary & _).
  destruct (CreateStaticPageData_spec sample_globals "credits" "Credits")
    as (_ & _ & Hother).
  destruct (Hglossary eq_refl) as (Hletters & _ & _ & Hcontent).
  destruct Hother as [Hnil Hempty]; [discriminate|].
  split; [|split; [exact Hcontent|split; [exact Hnil|exact Hempty]]].
  rewrite Hletters. vm_compute. reflexivity.
Defined.

(** ** Entry pages *)

Lemma ReplaceAll_underscore (s : string) :
  ReplaceAll s "_" " " = underscores_to_spaces s.
Proof.
  unfold ReplaceAll. induction s as [|b s IH]; [done|].
  cbn [ReplaceAll_from underscores_to_spaces String.prefix String.length].
  destruct (ascii_dec "_" b) as [<-|Hne].
  - replace (String.prefix EmptyString s) with true by by destruct s.
    simpl. by rewrite IH.
  - rewrite IH. by destruct (Ascii.eqb_spec b "_") as [->|_].
Qed.

(** C7. [CreateEntryPageData] sets [PlainTextTitle] to the slug with every
    underscore replaced by a space, whatever the other arguments; the
    result has no underscore left, and the slug [adonar-se_(de)] gives
    the title [adonar-se (de)]. *)
Theorem CreateEntryPageData_title (slug entryHTML prevSlug nextSlug : string) :
  PlainTextTitle (CreateEntryPageData slug entryHTML prevSlug nextSlug)
  = underscores_to_spaces slug /\
  (forall n, String.get n (PlainTextTitle
               (CreateEntryPageData slug entryHTML prevSlug nextSlug))
             = (fun b : ascii => if Ascii.eqb b "_" then " "%char else b)
                 <$> String.get n slug) /\
  PlainTextTitle (CreateEntryPageData "adonar-se_(de)" entryHTML prevSlug nextSlug)
  = "adonar-se (de)".
Proof.
  unfold CreateEntryPageData. simpl PlainTextTitle.
  rewrite !ReplaceAll_underscore. split; [done|]. split; [|done].
  induction slug as [|b s IH]; intros n; [done|].
  destruct n as [|n]; [done|]. simpl. apply IH.
Qed.

(** ** The data file *)

Lemma decode_string_is_Some (cur : string) (v : json) :
  is_Some (decode_string cur v) <-> string_ok v = true.
Proof. destruct v; simpl; split; (done || by intros []). Qed.

Lemma decode_members_is_Some {T} (step : T -> string * json -> option T)
    (ok : string * json -> bool) :
  (forall cur m, is_Some (step cur m) <-> ok m = true) ->
  forall members cur,
    is_Some (decode_members step cur members) <-> forallb ok members = true.
Proof.
  intros Hstep. induction members as [|m members IH]; intros cur; simpl.
  - done.
  - rewrite andb_true_iff, <- (Hstep cur m).
    destruct (step cur m) as [cur'|]; simpl.
    + rewrite IH. split; [by eauto|]. by intros [_ ?].
    + split; [by intros []|]. by intros [[] _].
Qed.

Lemma decode_members_app {T} (step : T -> string * json -> option T)
    (ms1 ms2 : list (string * json)) :
  forall cur,
    decode_members step cur (ms1 ++ ms2)
    = match decode_members step cur ms1 with
      | Some cur' => decode_members step cur' ms2
      | None => None
      end.
Proof.
  induction ms1 as [|m ms1 IH]; intros cur; simpl; [done|].
  by destruct (step cur m).
Qed.

Lemma decode_elements_is_Some {T} (decode_elem : T -> json -> option T)
    (zero : T) (elem_ok : json -> bool) :
  (forall cur x, is_Some (decode_elem cur x) <-> elem_ok x = true) ->
  forall elements backing,
    is_Some (decode_elements decode_elem zero backing elements)
    <-> forallb elem_ok elements = true.
Proof.
  intros Helem. induction elements as [|x elements IH]; intros backing; simpl.
  - done.
  - rewrite andb_true_iff, <- (Helem (hd zero backing) x).
    destruct (decode_elem (hd zero backing) x) as [e|]; simpl.
    + rewrite <- (IH (tl backing)).
      destruct (decode_elements decode_elem zero (tl backing) elements);
        simpl; split; first [by eauto | by intros [_ []] | by intros []].
    + split; [by intros []|]. by intros [[] _].
Qed.

(** The elements decoded into a backing array whose element at [i] is
    [g i]. *)
Lemma decode_elements_imap {T} (decode_elem : T -> json -> option T)
    (zero : T) (elem_ok : json -> bool) (elements : list json) :
  forall (backing : list T) (g : nat -> T) (h : nat -> json -> T),
    (forall i x, elem_ok x = true -> decode_elem (g i) x = Some (h i x)) ->
    (forall i, default zero (backing !! i) = g i) ->
    forallb elem_ok elements = true ->
    decode_elements decode_elem zero backing elements
    = Some (imap h elements).
Proof.
  induction elements as [|x elements IH]; intros backing g h Hstep Hg Hok;
    simpl; [done|].
  simpl in Hok. apply andb_true_iff in Hok as [Hx Hok].
  replace (hd zero backing) with (g 0%nat)
    by (rewrite <- Hg; by destruct backing).
  rewrite (Hstep 0%nat x Hx).
  rewrite (IH (tl backing) (g ∘ S) (h ∘ S)); [done| | |done].
  - intros i y Hy. by apply Hstep.
  - intros i. simpl. rewrite <- Hg. by destruct backing.
Qed.

(** *** The values of a field, member after member *)

Lemma find_name_elem {env : Environment} (names : list string)
    (k name : string) :
  find_name names k = Some name -> name ∈ names.
Proof.
  unfold find_name. destruct (find (String.eqb k) names) as [n|] eqn:Hexact.
  - intros [= <-]. apply find_some in Hexact as [Hin _].
    by apply list_elem_of_In.
  - intros Hfold. apply find_some in Hfold as [Hin _].
    by apply list_elem_of_In.
Qed.

Lemma values_of_snoc {env : Environment} (names : list string) (name : string)
    (ms : list (string * json)) (m : string * json) :
  values_of names name (ms ++ [m])
  = values_of names name ms
    ++ (if decide (find_name names m.1 = Some name) then [m.2] else []).
Proof. unfold values_of. rewrite omap_app. simpl. by case_decide. Qed.

Lemma values_of_app {env : Environment} (names : list string) (name : string)
    (ms1 ms2 : list (string * json)) :
  values_of names name (ms1 ++ ms2)
  = values_of names name ms1 ++ values_of names name ms2.
Proof. unfold values_of. apply omap_app. Qed.

Lemma values_of_skip {env : Environment} (names : list string) (name : string)
    (ms : list (string * json)) (m : string * json) :
  find_name names m.1 <> Some name ->
  values_of names name (ms ++ [m]) = values_of names name ms.
Proof.
  intros Hm. rewrite values_of_snoc, decide_False by done. apply app_nil_r.
Qed.

Lemma values_of_take {env : Environment} (names : list string) (name : string)
    (ms : list (string * json)) (m : string * json) :
  find_name names m.1 = Some name ->
  values_of names name (ms ++ [m]) = values_of names name ms ++ [m.2].
Proof. intros Hm. by rewrite values_of_snoc, decide_True. Qed.

Lemma string_of_null (values : list json) :
  string_of (values ++ [JNull]) = string_of values.
Proof. unfold string_of. rewrite omap_app. simpl. by rewrite app_nil_r. Qed.

Lemma string_of_string (values : list json) (s : string) :
  string_of (values ++ [JString s]) = s.
Proof. unfold string_of. rewrite omap_app. simpl. by rewrite last_snoc. Qed.

Lemma after_reset_snoc (resets : json -> bool) (values : list json)
    (v : json) :
  after_reset resets (values ++ [v])
  = if resets v then [] else after_reset resets values ++ [v].
Proof. unfold after_reset. by rewrite foldl_app. Qed.

Section decode.
Context {env : Environment}.

(** *** Decoding into a struct *)

Lemma decode_struct_is_Some {T} (names : list string)
    (set : T -> string -> json -> option T)
    (field_ok : string -> json -> bool) :
  (forall cur name x, is_Some (set cur name x) <-> field_ok name x = true) ->
  forall cur v,
    is_Some (decode_struct names set cur v) <-> struct_ok names field_ok v = true.
Proof.
  intros Hset cur v. destruct v; simpl; try (split; (done || by intros [])).
  apply decode_members_is_Some. intros c m.
  destruct (find_name names m.1); [apply Hset|done].
Qed.

(** A struct that is described by the members [ms], after a value that is
    decoded into it, is described by [ms] and the members of the value. *)
Lemma decode_struct_of {T} (names : list string)
    (set : T -> string -> json -> option T)
    (field_ok : string -> json -> bool) (described : list (string * json) -> T) :
  (forall ms m, find_name names m.1 = None -> described (ms ++ [m]) = described ms) ->
  (forall ms m name,
     find_name names m.1 = Some name -> field_ok name m.2 = true ->
     set (described ms) name m.2 = Some (described (ms ++ [m]))) ->
  forall v ms,
    struct_ok names field_ok v = true ->
    decode_struct names set (described ms) v = Some (described (ms ++ members_of v)).
Proof.
  intros Hskip Hset v ms Hok.
  destruct v as [| | | | |members]; simpl in *; try done.
  { by rewrite app_nil_r. }
  revert ms. induction members as [|m members IH]; intros ms; simpl.
  { by rewrite app_nil_r. }
  simpl in Hok. apply andb_true_iff in Hok as [Hm Hok].
  rewrite (cons_middle m ms members), app_assoc.
  destruct (find_name names m.1) as [name|] eqn:Hname.
  - rewrite (Hset ms m name Hname Hm). by apply IH.
  - rewrite <- (Hskip ms m Hname). by apply IH.
Qed.

Lemma Entry_set_is_Some (e : Entry) (name : string) (v : json) :
  is_Some (Entry_set e name v) <-> string_ok v = true.
Proof.
  rewrite <- (decode_string_is_Some EmptyString).
  unfold Entry_set. repeat case_decide; destruct v; simpl;
    split; (done || by intros []).
Qed.

Lemma SemanticField_set_is_Some (f : SemanticField) (name : string) (v : json) :
  is_Some (SemanticField_set f name v) <-> string_ok v = true.
Proof.
  rewrite <- (decode_string_is_Some EmptyString).
  unfold SemanticField_set. repeat case_decide; destruct v; simpl;
    split; (done || by intros []).
Qed.

Lemma Entry_ok_is_Some (e : Entry) (v : json) :
  is_Some (decode_struct Entry_names Entry_set e v) <-> Entry_ok v = true.
Proof. apply decode_struct_is_Some. intros. apply Entry_set_is_Some. Qed.

Lemma SemanticField_ok_is_Some (f : SemanticField) (v : json) :
  is_Some (decode_struct SemanticField_names SemanticField_set f v)
  <-> SemanticField_ok v = true.
Proof. apply decode_struct_is_Some. intros. apply SemanticField_set_is_Some. Qed.

Lemma decode_struct_entry_of (ms : list (string * json)) (v : json) :
  Entry_ok v = true ->
  decode_struct Entry_names Entry_set (entry_of ms) v
  = Some (entry_of (ms ++ members_of v)).
Proof.
  apply (decode_struct_of Entry_names Entry_set (fun _ => string_ok) entry_of).
  - intros ms' m Hm. unfold entry_of.
    by rewrite !values_of_skip by (rewrite Hm; done).
  - intros ms' m name Hname Hm.
    pose proof (find_name_elem _ _ _ Hname) as Hin.
    unfold entry_of.
    unfold Entry_names in Hin. set_unfold in Hin.
    destruct Hin as [->|[->|[->|[->|[]]]]]; unfold Entry_set; simpl.
    + rewrite (values_of_take _ _ _ _ Hname).
      rewrite !values_of_skip by (rewrite Hname; done).
      destruct m.2; try done; simpl;
        by rewrite ?string_of_null, ?string_of_string.
    + rewrite (values_of_take _ _ _ _ Hname).
      rewrite !values_of_skip by (rewrite Hname; done).
      destruct m.2; try done; simpl;
        by rewrite ?string_of_null, ?string_of_string.
    + rewrite (values_of_take _ _ _ _ Hname).
      rewrite !values_of_skip by (rewrite Hname; done).
      destruct m.2; try done; simpl;
        by rewrite ?string_of_null, ?string_of_string.
    + rewrite (values_of_take _ _ _ _ Hname).
      rewrite !values_of_skip by (rewrite Hname; done).
      destruct m.2; try done; simpl;
        by rewrite ?string_of_null, ?string_of_string.
Qed.

Lemma decode_struct_semantic_field_of (ms : list (string * json)) (v : json) :
  SemanticField_ok v = true ->
  decode_struct SemanticField_names SemanticField_set (semantic_field_of ms) v
  = Some (semantic_field_of (ms ++ members_of v)).
Proof.
  apply (decode_struct_of SemanticField_names SemanticField_set
           (fun _ => string_ok) semantic_field_of).
  - intros ms' m Hm. unfold semantic_field_of.
    by rewrite !values_of_skip by (rewrite Hm; done).
  - intros ms' m name Hname Hm.
    pose proof (find_name_elem _ _ _ Hname) as Hin.
    unfold semantic_field_of.
    unfold SemanticField_names in Hin. set_unfold in Hin.
    destruct Hin as [->|[->|[->|[]]]]; unfold SemanticField_set; simpl.
    + rewrite (values_of_take _ _ _ _ Hname).
      rewrite !values_of_skip by (rewrite Hname; done).
      destruct m.2; try done; simpl;
        by rewrite ?string_of_null, ?string_of_string.
    + rewrite (values_of_take _ _ _ _ Hname).
      rewrite !values_of_skip by (rewrite Hname; done).
      destruct m.2; try done; simpl;
        by rewrite ?string_of_null, ?string_of_string.
    + rewrite (values_of_take _ _ _ _ Hname).
      rewrite !values_of_skip by (rewrite Hname; done).
      destruct m.2; try done; simpl;
        by rewrite ?string_of_null, ?string_of_string.
Qed.

(** *** Decoding into a slice *)

Lemma decode_slice_is_Some {T} (decode_elem : T -> json -> option T)
    (zero : T) (elem_ok : json -> bool) :
  (forall cur x, is_Some (decode_elem cur x) <-> elem_ok x = true) ->
  forall cur v,
    is_Some (decode_slice decode_elem zero cur v)
    <-> slice_ok elem_ok v = true.
Proof.
  intros Helem cur v.
  destruct v as [| | | |elements|]; simpl; try (split; (done || by intros [])).
  destruct elements as [|x elements]; [done|].
  rewrite <- (decode_elements_is_Some decode_elem zero elem_ok Helem
                (x :: elements) (slice_elements cur ++ slice_spare cur)).
  destruct (decode_elements decode_elem zero _ (x :: elements));
    split; (done || by intros []).
Qed.

Lemma members_at_ge (i : nat) (array : json) :
  (length (elements_of array) <= i)%nat -> members_at i array = [].
Proof. intros Hi. unfold members_at. by rewrite lookup_ge_None_2. Qed.

Lemma members_at_ge_longest (arrays : list json) (i : nat) :
  (longest arrays <= i)%nat -> concat (map (members_at i) arrays) = [].
Proof.
  induction arrays as [|a arrays IH]; simpl; [done|]. intros Hi.
  rewrite members_at_ge, IH by lia. done.
Qed.

Lemma longest_snoc (arrays : list json) (a : json) :
  longest (arrays ++ [a])
  = Nat.max (longest arrays) (length (elements_of a)).
Proof. induction arrays as [|b arrays IH]; simpl; [lia|]. rewrite IH. lia. Qed.

Lemma last_le_longest (arrays : list json) :
  (length (elements_of (default JNull (last arrays))) <= longest arrays)%nat.
Proof.
  destruct arrays as [|a arrays _] using rev_ind; [done|].
  rewrite last_snoc, longest_snoc. simpl. lia.
Qed.

Lemma element_at_snoc {T} (elem_of : list (string * json) -> T)
    (arrays : list json) (a : json) (i : nat) :
  element_at elem_of (arrays ++ [a]) i
  = elem_of (concat (map (members_at i) arrays) ++ members_at i a).
Proof.
  unfold element_at. rewrite map_app, concat_app. simpl.
  by rewrite app_nil_r.
Qed.

(** The elements of the slice that the values of a field give. *)
Lemma slice_elements_Slice_of {T} (elem_of : list (string * json) -> T)
    (values : list json) :
  slice_elements (Slice_of elem_of values) = slice_of elem_of values.
Proof.
  unfold Slice_of, slice_of. simpl.
  rewrite <- fmap_take, take_seq. f_equal. f_equal.
  pose proof (last_le_longest (after_reset is_empty values)). lia.
Qed.

(** A slice that the values of its field give, after one more value. *)
Lemma decode_slice_Slice_of {T} (decode_elem : T -> json -> option T)
    (zero : T) (elem_ok : json -> bool)
    (elem_of : list (string * json) -> T) :
  elem_of [] = zero ->
  (forall ms x,
     elem_ok x = true ->
     decode_elem (elem_of ms) x = Some (elem_of (ms ++ members_of x))) ->
  forall values v,
    slice_ok elem_ok v = true ->
    decode_slice decode_elem zero (Slice_of elem_of values) v
    = Some (Slice_of elem_of (values ++ [v])).
Proof.
  intros Hzero Hstep values v Hok.
  unfold Slice_of at 2. rewrite after_reset_snoc.
  destruct v as [| | | |elements|]; try done.
  destruct elements as [|x elements]; [done|].
  set (E := x :: elements) in *.
  pose proof (eq_refl : length E = S (length elements)) as HE.
  change (is_empty (JArray E)) with false. cbv iota.
  set (arrays := after_reset is_empty values).
  rewrite last_snoc, longest_snoc.
  change (length (elements_of (default JNull (Some (JArray E)))))
    with (length E).
  change (length (elements_of (JArray E))) with (length E).
  unfold decode_slice. fold E.
  change (match E with [] => Some (mkSlice [] []) | _ :: _ => ?k end) with k.
  unfold Slice_of. fold arrays. cbn [slice_elements slice_spare].
  rewrite take_drop.
  rewrite (decode_elements_imap decode_elem zero elem_ok E _
             (element_at elem_of arrays)
             (fun i y =>
                elem_of (concat (map (members_at i) arrays) ++ members_of y))).
  - f_equal. f_equal.
    + apply list_eq. intros i.
      rewrite list_lookup_imap, lookup_take, list_lookup_fmap.
      destruct (E !! i) as [y|] eqn:Hy; simpl.
      * pose proof (lookup_lt_Some _ _ _ Hy) as Hlt.
        rewrite decide_True by done. rewrite lookup_seq_lt by lia. simpl.
        rewrite element_at_snoc. unfold members_at. simpl. by rewrite Hy.
      * apply lookup_ge_None in Hy. by rewrite decide_False by lia.
    + apply list_eq. intros i.
      rewrite !lookup_drop, !list_lookup_fmap.
      destruct (decide (length E + i < longest arrays)%nat) as [Hlt|Hge].
      * rewrite !lookup_seq_lt by lia. simpl. f_equal.
        rewrite element_at_snoc, members_at_ge by (simpl; lia).
        by rewrite app_nil_r.
      * by rewrite !lookup_seq_ge by lia.
  - intros i y Hy. by apply Hstep.
  - intros i. rewrite list_lookup_fmap.
    destruct (decide (i < longest arrays)%nat) as [Hlt|Hge].
    + by rewrite lookup_seq_lt by lia.
    + rewrite lookup_seq_ge by lia. simpl. unfold element_at.
      by rewrite members_at_ge_longest by lia.
  - done.
Qed.

(** *** Decoding into a map *)

Lemma decode_map_is_Some (cur : gmap string string) (v : json) :
  is_Some (decode_map cur v) <-> map_ok v = true.
Proof.
  destruct v; simpl; try (split; (done || by intros [])).
  apply decode_members_is_Some. intros c m.
  rewrite <- (decode_string_is_Some EmptyString).
  destruct (decode_string EmptyString m.2); simpl; [done|].
  split; by intros [].
Qed.

Lemma decode_map_glossary_of (values : list json) (v : json) :
  map_ok v = true ->
  decode_map (glossary_of values) v = Some (glossary_of (values ++ [v])).
Proof.
  intros Hok. unfold glossary_of at 2. rewrite after_reset_snoc.
  destruct v as [| | | | |members]; try done. simpl.
  rewrite map_app, concat_app. simpl. rewrite app_nil_r.
  unfold glossary_of. simpl in Hok.
  generalize (concat (map members_of (after_reset is_null values))).
  induction members as [|m members IH]; intros ms.
  { simpl. by rewrite app_nil_r. }
  simpl in Hok. apply andb_true_iff in Hok as [Hm Hok].
  rewrite (cons_middle m ms members), app_assoc, <- (IH Hok (ms ++ [m])).
  rewrite fmap_app. cbn [fmap list_fmap]. rewrite reverse_snoc.
  rewrite list_to_map_cons. cbn [decode_members fst snd].
  by destruct m.2.
Qed.

(** *** Decoding the document *)

Lemma Data_set_is_Some (d : Decoding) (name : string) (v : json) :
  is_Some (Data_set d name v) <-> Data_field_ok name v = true.
Proof.
  unfold Data_set, Data_field_ok. repeat case_decide.
  - rewrite <- (decode_slice_is_Some (decode_struct Entry_names Entry_set)
                  Entry_zero Entry_ok Entry_ok_is_Some (decoding_Entries d)).
    destruct (decode_slice _ _ _ v); simpl; [done|]. split; by intros [].
  - rewrite <- (decode_slice_is_Some
                  (decode_struct SemanticField_names SemanticField_set)
                  SemanticField_zero SemanticField_ok
                  SemanticField_ok_is_Some (decoding_SemanticFields d)).
    destruct (decode_slice _ _ _ v); simpl; [done|]. split; by intros [].
  - rewrite <- (decode_map_is_Some (decoding_Glossary d)).
    destruct (decode_map _ v); simpl; [done|]. split; by intros [].
Qed.

(** [Unmarshal] succeeds exactly on the documents that match the schema. *)
Lemma Unmarshal_Data_is_Some (v : json) :
  is_Some (Unmarshal_Data v) <-> Data_ok v = true.
Proof.
  unfold Unmarshal_Data. rewrite fmap_is_Some.
  apply decode_struct_is_Some. intros. apply Data_set_is_Some.
Qed.

Lemma Unmarshal_Data_None (v : json) :
  Unmarshal_Data v = None <-> Data_ok v = false.
Proof.
  rewrite <- not_true_iff_false, <- Unmarshal_Data_is_Some.
  rewrite eq_None_not_Some. done.
Qed.

Lemma Data_set_Decoding_of (ms : list (string * json)) (m : string * json)
    (name : string) :
  find_name Data_names m.1 = Some name ->
  Data_field_ok name m.2 = true ->
  Data_set (Decoding_of ms) name m.2 = Some (Decoding_of (ms ++ [m])).
Proof.
  intros Hname Hm. pose proof (find_name_elem _ _ _ Hname) as Hin.
  unfold Data_names in Hin. set_unfold in Hin.
  unfold Decoding_of.
  destruct Hin as [->|[->|[->|[]]]]; unfold Data_set, Data_field_ok in *;
    simpl in *.
  - rewrite (values_of_take _ _ _ _ Hname).
    rewrite !values_of_skip by (rewrite Hname; done).
    by rewrite (decode_slice_Slice_of _ _ Entry_ok entry_of eq_refl
                  decode_struct_entry_of _ _ Hm).
  - rewrite (values_of_take _ _ _ _ Hname).
    rewrite !values_of_skip by (rewrite Hname; done).
    by rewrite (decode_slice_Slice_of _ _ SemanticField_ok semantic_field_of
                  eq_refl decode_struct_semantic_field_of _ _ Hm).
  - rewrite (values_of_take _ _ _ _ Hname).
    rewrite !values_of_skip by (rewrite Hname; done).
    by rewrite (decode_map_glossary_of _ _ Hm).
Qed.

(** What [Unmarshal] gives for a document that matches the schema. *)
Lemma Unmarshal_Data_document (v : json) :
  Data_ok v = true -> Unmarshal_Data v = Some (document_data v).
Proof.
  intros Hok. unfold Unmarshal_Data.
  change Decoding_zero with (Decoding_of []).
  rewrite (decode_struct_of Data_names Data_set Data_field_ok Decoding_of).
  - rewrite app_nil_l. cbn [fmap option_fmap option_map].
    unfold decoded, Decoding_of.
    cbn [decoding_Entries decoding_SemanticFields decoding_Glossary].
    by rewrite !slice_elements_Slice_of.
  - intros ms m Hm. unfold Decoding_of.
    by rewrite !values_of_skip by (rewrite Hm; done).
  - apply Data_set_Decoding_of.
  - exact Hok.
Qed.

End decode.

Lemma convertGlossary_id (glossary : gmap string string) :
  convertGlossary glossary = glossary.
Proof.
  unfold convertGlossary.
  apply (map_fold_weak_ind (fun r m => r = m)); [done|].
  by intros k x m r _ ->.
Qed.

Lemma entryIndexBySlug_is_Some (entries : list Entry) (s : string) :
  is_Some (index_of 0 entries ∅ !! s) <->
  exists e, e ∈ entries /\ Slug e = s.
Proof.
  split.
  - intros [k Hk]. apply index_of_empty_spec in Hk as (n & [(e & He & Hs) _] & _).
    exists e. split; [|done]. apply list_elem_of_lookup. eauto.
  - intros (e & He & Hs). destruct (last_at_exists entries s) as [n Hn].
    { apply Exists_exists. eauto. }
    exists (Z.of_nat n). apply index_of_empty_spec. eauto.
Qed.

(** The entries of a document that gives them once: one entry for each
    element of the array, in its order. *)
Lemma document_entries_once {env : Environment}
    (ms1 ms2 : list (string * json)) (k : string) (elements : list json) :
  find_name Data_names k = Some "entries" ->
  values_of Data_names "entries" ms1 = [] ->
  values_of Data_names "entries" ms2 = [] ->
  document_entries (JObject (ms1 ++ (k, JArray elements) :: ms2))
  = (fun x => entry_of (members_of x)) <$> elements.
Proof.
  intros Hk H1 H2. unfold document_entries. cbn [members_of].
  rewrite (cons_middle _ ms1 ms2), app_assoc, values_of_app.
  rewrite (values_of_take _ _ ms1 (k, JArray elements) Hk), H1, H2.
  cbn [app snd]. unfold slice_of, after_reset. cbn [foldl].
  destruct elements as [|x elements]; [done|].
  change (is_empty (JArray (x :: elements))) with false. cbv iota. simpl.
  f_equal.
  - unfold element_at, members_at. simpl. by rewrite app_nil_r.
  - apply list_eq. intros i. rewrite !list_lookup_fmap.
    destruct (decide (i < length elements)%nat) as [Hlt|Hge].
    + rewrite lookup_seq_lt by done. simpl.
      destruct (lookup_lt_is_Some_2 elements i Hlt) as [y Hy]. rewrite Hy.
      simpl. unfold element_at, members_at. simpl. rewrite Hy.
      by rewrite app_nil_r.
    + rewrite lookup_seq_ge, lookup_ge_None_2 by lia. done.
Qed.




(** * Part IV: further properties of the code *)

(** ** Lookup by slug, with or without duplicates *)

Lemma slug_free_or_last_at (entries : list Entry) (s : string) :
  slug_free entries s \/ exists n, last_at entries s n.
Proof.
  destruct (decide (Exists (fun e => Slug e = s) entries)) as [Hex|Hnex].
  - right. by apply last_at_exists.
  - left. intros e He Hs. apply Hnex, Exists_exists. eauto.
Qed.

(** X1. [RenderEntryBySlug] in a loaded state never panics.  It answers
    [("", false)] exactly for a slug that no entry carries, and for a slug
    that some entry carries it renders the last entry that carries it. *)
Theorem RenderEntryBySlug_loaded (data : Data) (g : Globals) (slug : string) :
  publish data = Returns g ->
  (slug_free (data_Entries data) slug /\
   RenderEntryBySlug g slug = Returns (EmptyString, false)) \/
  (exists n e,
     last_at (data_Entries data) slug n /\
     data_Entries data !! n = Some e /\
     RenderEntryBySlug g slug = Returns (RenderEntry e, true)).
Proof.
  intros (Hall & Hidx & _)%publish_inv. unfold RenderEntryBySlug.
  destruct (slug_free_or_last_at (data_Entries data) slug) as [Hfree|[n Hn]].
  - left. split; [done|].
    apply index_of_empty_None in Hfree. by rewrite Hidx, Hfree.
  - right. pose proof Hn as [(e & He & _) _]. exists n, e.
    split; [done|]. split; [done|].
    assert (entryIndexBySlug g !! slug = Some (Z.of_nat n)) as ->.
    { rewrite Hidx. apply index_of_empty_spec. eauto. }
    rewrite Hall. by rewrite (index_lookup _ _ _ He).
Qed.

Lemma RenderEntryBySlug_loaded_witness :
  publish thrice_data = Returns thrice_globals /\
  RenderEntryBySlug thrice_globals "casa"
  = Returns (RenderEntry entry_casa'', true) /\
  RenderEntryBySlug thrice_globals "cosa" = Returns (EmptyString, false).
Proof.
  assert (publish thrice_data = Returns thrice_globals) as Hload
    by (vm_compute; reflexivity).
  split; [exact Hload|]. split.
  - destruct (RenderEntryBySlug_loaded thrice_data thrice_globals "casa" Hload)
      as [[_ Hnone]|(n & e & _ & _ & Hsome)]; [discriminate Hnone|].
    reflexivity.
  - destruct (RenderEntryBySlug_loaded thrice_data thrice_globals "cosa" Hload)
      as [[_ Hnone]|(n & e & _ & _ & Hsome)]; [exact Hnone|discriminate Hsome].
Defined.

(** ** Navigation is symmetric *)

Lemma GetAdjacentEntrySlugs_at (data : Data) (g : Globals) (n : nat) (e : Entry) :
  publish data = Returns g ->
  NoDup (Slug <$> data_Entries data) ->
  data_Entries data !! n = Some e ->
  GetAdjacentEntrySlugs g (Slug e)
  = Returns (match n with
             | O => EmptyString
             | S m => from_option Slug EmptyString (data_Entries data !! m)
             end,
             from_option Slug EmptyString (data_Entries data !! S n)).
Proof.
  intros (Hall & Hidx & _)%publish_inv Hnd Hn. unfold GetAdjacentEntrySlugs.
  assert (entryIndexBySlug g !! Slug e = Some (Z.of_nat n)) as ->.
  { rewrite Hidx. apply index_of_empty_spec. exists n.
    split; [by apply NoDup_slug_last_at|done]. }
  rewrite Hall. pose proof (lookup_lt_Some _ _ _ Hn) as Hlt.
  assert ((if 0 <? Z.of_nat n
           then e0 <-! index (data_Entries data) (Z.of_nat n - 1);
                Returns (Slug e0)
           else Returns EmptyString)
          = Returns (match n with
                     | O => EmptyString
                     | S m => from_option Slug EmptyString
                                (data_Entries data !! m)
                     end)) as ->.
  { destruct n as [|m]; [done|].
    replace (0 <? Z.of_nat (S m)) with true by (symmetry; apply Z.ltb_lt; lia).
    replace (Z.of_nat (S m) - 1) with (Z.of_nat m) by lia.
    destruct (lookup_lt_is_Some_2 (data_Entries data) m) as [p Hp]; [lia|].
    by rewrite (index_lookup _ _ _ Hp), Hp. }
  simpl. unfold len.
  destruct (decide (S n < length (data_Entries data))%nat) as [Hnext|Hlast].
  - replace (Z.of_nat n <? Z.of_nat (length (data_Entries data)) - 1)
      with true by (symmetry; apply Z.ltb_lt; lia).
    replace (Z.of_nat n + 1) with (Z.of_nat (S n)) by lia.
    destruct (lookup_lt_is_Some_2 (data_Entries data) (S n)) as [x Hx]; [lia|].
    by rewrite (index_lookup _ _ _ Hx), Hx.
  - replace (Z.of_nat n <? Z.of_nat (length (data_Entries data)) - 1)
      with false by (symmetry; apply Z.ltb_ge; lia).
    rewrite (lookup_ge_None_2 (data_Entries data) (S n)) by lia. done.
Qed.

(** X2. With pairwise distinct slugs the links between entry pages agree: for
    two consecutive entries, the next slug of the first is the slug of the
    second and the previous slug of the second is the slug of the first. *)
Theorem GetAdjacentEntrySlugs_symmetric
    (data : Data) (g : Globals) (n : nat) (e1 e2 : Entry) :
  publish data = Returns g ->
  NoDup (Slug <$> data_Entries data) ->
  data_Entries data !! n = Some e1 ->
  data_Entries data !! S n = Some e2 ->
  exists before after,
    GetAdjacentEntrySlugs g (Slug e1) = Returns (before, Slug e2) /\
    GetAdjacentEntrySlugs g (Slug e2) = Returns (Slug e1, after).
Proof.
  intros Hload Hnd H1 H2.
  rewrite (GetAdjacentEntrySlugs_at data g n e1 Hload Hnd H1).
  rewrite (GetAdjacentEntrySlugs_at data g (S n) e2 Hload Hnd H2).
  rewrite H1, H2. simpl. eauto.
Qed.

Lemma GetAdjacentEntrySlugs_symmetric_witness :
  publish sample_data = Returns sample_globals /\
  NoDup (Slug <$> data_Entries sample_data) /\
  data_Entries sample_data !! 1%nat = Some entry_casa /\
  data_Entries sample_data !! 2%nat = Some entry_cosa /\
  exists before after,
    GetAdjacentEntrySlugs sample_globals "casa" = Returns (before, "cosa") /\
    GetAdjacentEntrySlugs sample_globals "cosa" = Returns ("casa", after).
Proof.
  assert (NoDup (Slug <$> data_Entries sample_data)) as Hnd by compute_done.
  split; [exact publish_sample|]. split; [exact Hnd|].
  split; [reflexivity|]. split; [reflexivity|].
  exact (GetAdjacentEntrySlugs_symmetric sample_data sample_globals 1%nat
           entry_casa entry_cosa publish_sample Hnd eq_refl eq_refl).
Defined.

(** X3. In a loaded state the links between letter pages agree: for two
    consecutive letters, the next letter of the first is the second and the
    previous letter of the second is the first; and the first is smaller. *)
Theorem GetNavigationLetters_symmetric
    (data : Data) (g : Globals) (j : nat) (l1 l2 : string) :
  publish data = Returns g ->
  DictionaryLetters g !! j = Some l1 ->
  DictionaryLetters g !! S j = Some l2 ->
  string_lt l1 l2 /\
  exists before after,
    GetNavigationLetters g l1 = Returns (before, l2) /\
    GetNavigationLetters g l2 = Returns (l1, after).
Proof.
  intros Hload H1 H2.
  destruct (DictionaryLetters_spec data g Hload) as (Hsorted & Hnd & _).
  split; [apply (Hsorted j (S j)); [lia|done..]|].
  destruct (GetNavigationLetters_NoDup g l1 Hnd) as [Hat1 _].
  destruct (GetNavigationLetters_NoDup g l2 Hnd) as [Hat2 _].
  destruct (Hat1 j H1) as (p1 & n1 & Hcall1 & _ & Hnext).
  destruct (Hat2 (S j) H2) as (p2 & n2 & Hcall2 & Hprev & _).
  pose proof (lookup_lt_Some _ _ _ H2) as Hlt.
  destruct Hnext as [[Hlen _]|[_ Hn]]; [lia|].
  destruct Hprev as [[Hj _]|[_ Hp]]; [lia|].
  replace (S j - 1)%nat with j in Hp by lia.
  rewrite H2 in Hn. injection Hn as <-. rewrite H1 in Hp. injection Hp as <-.
  eauto.
Qed.

Lemma GetNavigationLetters_symmetric_witness :
  publish sample_data = Returns sample_globals /\
  DictionaryLetters sample_globals !! 0%nat = Some "a" /\
  DictionaryLetters sample_globals !! 1%nat = Some "c" /\
  string_lt "a" "c" /\
  exists before after,
    GetNavigationLetters sample_globals "a" = Returns (before, "c") /\
    GetNavigationLetters sample_globals "c" = Returns ("a", after).
Proof.
  split; [exact publish_sample|]. split; [reflexivity|]. split; [reflexivity|].
  exact (GetNavigationLetters_symmetric sample_data sample_globals 0%nat
           "a" "c" publish_sample eq_refl eq_refl).
Defined.

(** ** Letters and letter lists *)

Lemma entries_of_letter_cons_iff (c : ascii) (entries : list Entry) :
  entries_of_letter c entries <> [] <->
  exists e t, e ∈ entries /\ NormalizedTitle e = String c t.
Proof.
  unfold entries_of_letter. induction entries as [|entry rest IH]; simpl.
  - split; [done|]. intros (e & t & He & _). by apply elem_of_nil in He.
  - destruct (NormalizedTitle entry) as [|b t] eqn:Hnt; simpl.
    + rewrite IH. split.
      * intros (e & t & He & Ht). exists e, t. split; [by right|done].
      * intros (e & t & [->|He]%elem_of_cons & Ht); [congruence|eauto].
    + destruct (Ascii.eqb_spec b c) as [->|Hne]; simpl.
      * split; [|done]. intros _. exists entry, t. split; [left|done].
      * rewrite IH. split.
        -- intros (e & t' & He & Ht). exists e, t'. split; [by right|done].
        -- intros (e & t' & [->|He]%elem_of_cons & Ht); [congruence|eauto].
Qed.

(** X4. When every non-empty normalized title begins with an ASCII byte, the
    letters of a loaded state are exactly the one-byte strings for which
    [GetEntriesByFirstLetter] returns a non-empty list: no letter page is
    empty and no entry with a title is left without a letter page. *)
Theorem DictionaryLetters_iff_entries (data : Data) (g : Globals) (l : string) :
  publish data = Returns g ->
  ascii_initials (data_Entries data) ->
  l ∈ DictionaryLetters g <->
  exists c e es,
    l = String c EmptyString /\
    GetEntriesByFirstLetter g l = Returns (e :: es).
Proof.
  intros Hload Hascii.
  destruct (DictionaryLetters_spec data g Hload) as (_ & _ & Hin).
  destruct (publish_inv data g Hload) as (Hall & _).
  assert (forall c,
            GetEntriesByFirstLetter g (String c EmptyString)
            = Returns (entries_of_letter c (data_Entries data))) as Hcall.
  { intros c. unfold GetEntriesByFirstLetter.
    by rewrite Hall, GetEntriesByFirstLetter_loop_Returns. }
  rewrite Hin. split.
  - intros (e & b & t & He & Ht & ->).
    rewrite (string_of_byte_ascii b) by by eapply Hascii.
    destruct (entries_of_letter b (data_Entries data)) as [|x xs] eqn:Hes.
    + exfalso. revert Hes. apply entries_of_letter_cons_iff. eauto.
    + exists b, x, xs. split; [done|]. by rewrite Hcall, Hes.
  - intros (c & x & xs & -> & Hes). rewrite Hcall in Hes.
    destruct (entries_of_letter_cons_iff c (data_Entries data))
      as [Hsome _].
    destruct Hsome as (e & t & He & Ht); [by injection Hes as ->|].
    exists e, c, t. split; [done|]. split; [done|].
    symmetry. apply string_of_byte_ascii. by eapply Hascii.
Qed.

Lemma DictionaryLetters_iff_entries_witness :
  publish sample_data = Returns sample_globals /\
  ascii_initials (data_Entries sample_data) /\
  ("q" ∈ DictionaryLetters sample_globals) /\
  ~ (exists c e es,
       "b" = String c EmptyString /\
       GetEntriesByFirstLetter sample_globals "b" = Returns (e :: es)).
Proof.
  split; [exact publish_sample|]. split; [exact ascii_initials_sample|].
  split.
  - apply (DictionaryLetters_iff_entries sample_data sample_globals "q"
             publish_sample ascii_initials_sample).
    exists "q"%char, (LetterEntry.mk "quan" "Quan"), []. done.
  - intros Hb.
    apply (DictionaryLetters_iff_entries sample_data sample_globals "b"
             publish_sample ascii_initials_sample) in Hb.
    revert Hb. compute_done.
Defined.

(** ** The handlers *)

Lemma slices_Index_from_range (s : list string) (v : string) :
  forall i,
    slices_Index_from i s v = -1 \/
    i <= slices_Index_from i s v < i + len s.
Proof.
  unfold len. induction s as [|x s IH]; intros i; simpl; [by left|].
  case_decide as Hx; [right; lia|].
  destruct (IH (i + 1)) as [Hnone|Hin]; [by left|right; lia].
Qed.

(** [GetNavigationLetters] returns, whatever the letters are. *)
Lemma GetNavigationLetters_Returns (g : Globals) (letter : string) :
  exists prev next, GetNavigationLetters g letter = Returns (prev, next).
Proof.
  unfold GetNavigationLetters, slices_Index.
  destruct (slices_Index_from_range (DictionaryLetters g) letter 0)
    as [->|Hin]; [simpl; eauto|].
  set (i := slices_Index_from 0 (DictionaryLetters g) letter) in *.
  replace (i <? 0) with false by (symmetry; apply Z.ltb_ge; lia).
  assert (forall k, 0 <= k < len (DictionaryLetters g) ->
            exists x, index (DictionaryLetters g) k = Returns x) as Hget.
  { intros k Hk.
    destruct (lookup_lt_is_Some_2 (DictionaryLetters g) (Z.to_nat k))
      as [x Hx]; [unfold len in Hk; lia|].
    exists x. apply index_Returns. split; [lia|done]. }
  destruct (0 <? i) eqn:Hprev.
  - apply Z.ltb_lt in Hprev. destruct (Hget (i - 1)) as [p ->]; [lia|].
    destruct (i <? len (DictionaryLetters g) - 1) eqn:Hnext; simpl.
    + apply Z.ltb_lt in Hnext. destruct (Hget (i + 1)) as [n ->]; [lia|].
      simpl. eauto.
    + eauto.
  - destruct (i <? len (DictionaryLetters g) - 1) eqn:Hnext; simpl.
    + apply Z.ltb_lt in Hnext. destruct (Hget (i + 1)) as [n ->]; [lia|].
      simpl. eauto.
    + eauto.
Qed.

Lemma GetNavigationLetters_at (g : Globals) (j : nat) (l : string) :
  NoDup (DictionaryLetters g) ->
  DictionaryLetters g !! j = Some l ->
  GetNavigationLetters g l
  = Returns (before_at id (DictionaryLetters g) j,
             after_at id (DictionaryLetters g) j).
Proof.
  intros Hnd Hj. destruct (GetNavigationLetters_NoDup g l Hnd) as [Hat _].
  destruct (Hat j Hj) as (p & n & -> & Hprev & Hnext).
  unfold before_at, after_at. repeat f_equal.
  - destruct Hprev as [[-> ->]|[Hpos Hp]]; [done|].
    destruct j as [|k]; [lia|]. replace (S k - 1)%nat with k in Hp by lia.
    by rewrite Hp.
  - destruct Hnext as [[Hlast ->]|[_ Hn]]; [|by rewrite Hn].
    by rewrite lookup_ge_None_2 by lia.
Qed.

Lemma single_lowercase_dec (letter : string) :
  (exists c, letter = String c EmptyString /\ lowercase c) \/
  (forall c, letter = String c EmptyString -> ~ lowercase c).
Proof.
  destruct letter as [|c [|c' t]]; [by right| |by right].
  destruct (decide (97 <= N_of_ascii c <= 122)%N) as [Hc|Hc].
  - left. by exists c.
  - right. by intros ? [= <-].
Qed.

Lemma lowercase_ltb (c : ascii) :
  lowercase c <-> Ascii.ltb c "a" = false /\ Ascii.ltb "z" c = false.
Proof.
  unfold lowercase, Ascii.ltb, Ascii.compare.
  change (N_of_ascii "a") with 97%N. change (N_of_ascii "z") with 122%N.
  destruct (N.compare_spec (N_of_ascii c) 97);
    destruct (N.compare_spec 122 (N_of_ascii c)); split;
    first [lia | done | by intros []].
Qed.

Lemma LetterHandler_letter (g : Globals) (c : ascii) :
  lowercase c ->
  LetterHandler g (String c EmptyString)
  = match entries_of_letter c (AllEntries g) with
    | [] => Returns serveNotFound
    | x :: xs =>
        nav <-! GetNavigationLetters g (String c EmptyString);
        let '(prevLetter, nextLetter) := nav in
        Returns (mkResponse StatusOK
                   (CreateLetterPageData (String c EmptyString) (x :: xs)
                      prevLetter nextLetter))
    end.
Proof.
  intros [Ha Hz]%lowercase_ltb. unfold LetterHandler, GetEntriesByFirstLetter.
  simpl. rewrite Ha. simpl. rewrite Hz. simpl.
  rewrite GetEntriesByFirstLetter_loop_Returns. simpl.
  destruct (entries_of_letter c (AllEntries g)) as [|x xs]; [done|].
  by replace (len (x :: xs) =? 0) with false
    by (symmetry; apply Z.eqb_neq; unfold len; simpl; lia).
Qed.

Lemma LetterHandler_other (g : Globals) (letter : string) :
  (forall c, letter = String c EmptyString -> ~ lowercase c) ->
  LetterHandler g letter = Returns serveNotFound.
Proof.
  intros Hother. unfold LetterHandler.
  destruct letter as [|c [|c' t]]; [done| |].
  - simpl. destruct (Ascii.ltb c "a") eqn:Ha; [done|]. simpl.
    destruct (Ascii.ltb "z" c) eqn:Hz; [done|].
    destruct (Hother c eq_refl). by apply lowercase_ltb.
  - replace (strlen (String c (String c' t)) =? 1) with false; [done|].
    symmetry. apply Z.eqb_neq. unfold strlen. simpl. lia.
Qed.

(** X5. [LetterHandler] never panics, whatever the path value and the state:
    it reads [letter[0]] only of a string of length one.  It answers with a
    letter page exactly when the path value is a single letter a-z with
    which some normalized title begins; that page lists the entries of the
    letter and carries its neighbours.  In every other case it answers the
    404 page. *)
Theorem LetterHandler_spec (g : Globals) (letter : string) :
  (forall c,
     letter = String c EmptyString -> lowercase c ->
     entries_of_letter c (AllEntries g) <> [] ->
     exists prev next,
       GetNavigationLetters g letter = Returns (prev, next) /\
       LetterHandler g letter
       = Returns (mkResponse StatusOK
                    (CreateLetterPageData letter
                       (entries_of_letter c (AllEntries g)) prev next))) /\
  ((forall c,
      letter = String c EmptyString -> lowercase c ->
      entries_of_letter c (AllEntries g) = []) ->
   LetterHandler g letter = Returns serveNotFound).
Proof.
  split.
  - intros c -> Hc Hes. rewrite (LetterHandler_letter g c Hc).
    destruct (entries_of_letter c (AllEntries g)) as [|x xs]; [done|].
    destruct (GetNavigationLetters_Returns g (String c EmptyString))
      as (prev & next & Hnav).
    exists prev, next. split; [done|]. by rewrite Hnav.
  - intros Hnone.
    destruct (single_lowercase_dec letter) as [(c & -> & Hc)|Hother].
    + by rewrite (LetterHandler_letter g c Hc), (Hnone c eq_refl Hc).
    + by apply LetterHandler_other.
Qed.

Lemma LetterHandler_spec_witness :
  LetterHandler sample_globals "c"
  = Returns (mkResponse 200
               (CreateLetterPageData "c"
                  [LetterEntry.mk "casa" "Casa"; LetterEntry.mk "cosa" "Cosa"]
                  "a" "q")) /\
  LetterHandler sample_globals "" = Returns serveNotFound /\
  LetterHandler sample_globals "ca" = Returns serveNotFound /\
  LetterHandler sample_globals "C" = Returns serveNotFound /\
  LetterHandler sample_globals "b" = Returns serveNotFound.
Proof.
  split.
  - destruct (LetterHandler_spec sample_globals "c") as [Hpage _].
    assert (lowercase "c"%char) as Hc by (unfold lowercase; simpl; lia).
    assert (entries_of_letter "c"%char (AllEntries sample_globals) <> [])
      as Hes by discriminate.
    destruct (Hpage "c"%char eq_refl Hc Hes) as (prev & next & Hnav & ->).
    vm_compute in Hnav. injection Hnav as <- <-. reflexivity.
  - split; [|split; [|split]].
    + apply (LetterHandler_spec sample_globals ""). intros c Hc. discriminate Hc.
    + apply (LetterHandler_spec sample_globals "ca"). intros c Hc.
      discriminate Hc.
    + apply (LetterHandler_spec sample_globals "C"). intros c [= <-] [Hlo _].
      simpl in Hlo. lia.
    + apply (LetterHandler_spec sample_globals "b"). intros c [= <-] _.
      reflexivity.
Defined.

(** X6. A letter page served in a loaded state is the page of one of the
    dictionary letters, and its links are the neighbours of that letter in
    the sorted letters: the previous one unless it is the first, the next
    one unless it is the last. *)
Theorem LetterHandler_page_in_letters
    (data : Data) (g : Globals) (letter : string) (r : Response) :
  publish data = Returns g ->
  LetterHandler g letter = Returns r ->
  StatusCode r = StatusOK ->
  exists j,
    DictionaryLetters g !! j = Some letter /\
    Letter (Page r) = letter /\
    Entries (Page r) <> [] /\
    PrevLetter (Page r)
    = match j with
      | O => EmptyString
      | S k => default EmptyString (DictionaryLetters g !! k)
      end /\
    NextLetter (Page r) = default EmptyString (DictionaryLetters g !! S j).
Proof.
  intros Hload Hcall Hok.
  destruct (single_lowercase_dec letter) as [(c & -> & Hc)|Hother];
    [|rewrite LetterHandler_other in Hcall by done;
      injection Hcall as <-; discriminate Hok].
  rewrite (LetterHandler_letter g c Hc) in Hcall.
  destruct (entries_of_letter c (AllEntries g)) as [|x xs] eqn:Hes;
    [injection Hcall as <-; discriminate Hok|].
  destruct (DictionaryLetters_spec data g Hload) as (_ & Hnd & Hin).
  destruct (publish_inv data g Hload) as (Hall & _).
  assert (String c EmptyString ∈ DictionaryLetters g) as Hmem.
  { apply Hin.
    destruct (entries_of_letter_cons_iff c (data_Entries data)) as [Hsome _].
    destruct Hsome as (e & t & He & Ht); [by rewrite <- Hall, Hes|].
    exists e, c, t. split; [done|]. split; [done|].
    symmetry. apply string_of_byte_ascii. destruct Hc as [_ Hhi]. lia. }
  apply list_elem_of_lookup in Hmem as [j Hj]. exists j.
  rewrite (GetNavigationLetters_at g j _ Hnd Hj) in Hcall.
  injection Hcall as <-. simpl. unfold before_at, after_at.
  split; [done|]. split; [done|]. split; [done|]. split.
  - destruct j as [|k]; [done|]. by destruct (DictionaryLetters g !! k).
  - by destruct (DictionaryLetters g !! S j).
Qed.

Lemma LetterHandler_page_in_letters_witness :
  publish sample_data = Returns sample_globals /\
  LetterHandler sample_globals "q"
  = Returns (mkResponse 200
               (CreateLetterPageData "q" [LetterEntry.mk "quan" "Quan"] "c" "")) /\
  exists j,
    DictionaryLetters sample_globals !! j = Some "q" /\
    default EmptyString (DictionaryLetters sample_globals !! S j) = EmptyString.
Proof.
  assert (LetterHandler sample_globals "q"
          = Returns (mkResponse 200
                       (CreateLetterPageData "q"
                          [LetterEntry.mk "quan" "Quan"] "c" ""))) as Hcall
    by (vm_compute; reflexivity).
  split; [exact publish_sample|]. split; [exact Hcall|].
  destruct (LetterHandler_page_in_letters sample_data sample_globals "q" _
              publish_sample Hcall eq_refl)
    as (j & Hj & _ & _ & _ & Hnext).
  exists j. split; [exact Hj|]. symmetry. exact Hnext.
Defined.

Lemma index_in_range {A} (l : list A) (k : Z) :
  0 <= k < len l -> exists x, index l k = Returns x.
Proof.
  intros Hk. destruct (lookup_lt_is_Some_2 l (Z.to_nat k)) as [x Hx].
  { unfold len in Hk. lia. }
  exists x. apply index_Returns. split; [lia|done].
Qed.

(** [GetAdjacentEntrySlugs] returns in every loaded state. *)
Lemma GetAdjacentEntrySlugs_Returns (data : Data) (g : Globals) (slug : string) :
  publish data = Returns g ->
  exists prev next, GetAdjacentEntrySlugs g slug = Returns (prev, next).
Proof.
  intros Hload. unfold GetAdjacentEntrySlugs.
  destruct (entryIndexBySlug g !! slug) as [i|] eqn:Hi; [|eauto].
  destruct (entryIndexBySlug_in_range data g slug i Hload Hi) as [Hrange _].
  destruct (0 <? i) eqn:Hprev.
  - apply Z.ltb_lt in Hprev.
    destruct (index_in_range (AllEntries g) (i - 1)) as [p ->]; [lia|].
    destruct (i <? len (AllEntries g) - 1) eqn:Hnext; simpl; [|eauto].
    apply Z.ltb_lt in Hnext.
    destruct (index_in_range (AllEntries g) (i + 1)) as [n ->]; [lia|].
    simpl. eauto.
  - destruct (i <? len (AllEntries g) - 1) eqn:Hnext; simpl; [|eauto].
    apply Z.ltb_lt in Hnext.
    destruct (index_in_range (AllEntries g) (i + 1)) as [n ->]; [lia|].
    simpl. eauto.
Qed.

(** X7. [IndexAndEntryHandler] in a loaded state never panics.  Without a slug
    it serves the home page for the path [/] and the 404 page for any other
    path; with a slug that no entry carries it serves the 404 page; with a
    slug that some entry carries it serves the page of the last entry that
    carries it, with the neighbours [GetAdjacentEntrySlugs] gives. *)
Theorem IndexAndEntryHandler_spec
    (data : Data) (g : Globals) (slug urlPath : string) :
  publish data = Returns g ->
  (slug = EmptyString -> urlPath = "/" ->
   IndexAndEntryHandler g slug urlPath
   = Returns (mkResponse StatusOK (CreateHomePageData g))) /\
  (slug = EmptyString -> urlPath <> "/" ->
   IndexAndEntryHandler g slug urlPath = Returns serveNotFound) /\
  (slug <> EmptyString -> slug_free (data_Entries data) slug ->
   IndexAndEntryHandler g slug urlPath = Returns serveNotFound) /\
  (slug <> EmptyString ->
   forall n e,
     last_at (data_Entries data) slug n -> data_Entries data !! n = Some e ->
     exists prevSlug nextSlug,
       GetAdjacentEntrySlugs g slug = Returns (prevSlug, nextSlug) /\
       IndexAndEntryHandler g slug urlPath
       = Returns (mkResponse StatusOK
                    (CreateEntryPageData slug (RenderEntry e)
                       prevSlug nextSlug))).
Proof.
  intros Hload. unfold IndexAndEntryHandler.
  destruct (publish_inv data g Hload) as (Hall & Hidx & _).
  split; [|split; [|split]].
  - intros -> ->. rewrite decide_True by done.
    rewrite decide_False; [done|]. intros Hne. by apply Hne.
  - intros -> Hpath. by rewrite !decide_True.
  - intros Hslug Hfree. rewrite decide_False by done.
    unfold RenderEntryBySlug. apply index_of_empty_None in Hfree.
    by rewrite Hidx, Hfree.
  - intros Hslug n e Hn He. rewrite decide_False by done.
    unfold RenderEntryBySlug.
    assert (entryIndexBySlug g !! slug = Some (Z.of_nat n)) as ->.
    { rewrite Hidx. apply index_of_empty_spec. eauto. }
    rewrite Hall, (index_lookup _ _ _ He). simpl.
    destruct (GetAdjacentEntrySlugs_Returns data g slug Hload)
      as (p & x & Hadj).
    exists p, x. split; [done|]. by rewrite Hadj.
Qed.

Lemma IndexAndEntryHandler_spec_witness :
  publish sample_data = Returns sample_globals /\
  IndexAndEntryHandler sample_globals "" "/"
  = Returns (mkResponse 200 (CreateHomePageData sample_globals)) /\
  IndexAndEntryHandler sample_globals "" "/index.php" = Returns serveNotFound /\
  IndexAndEntryHandler sample_globals "casam" "/lema/casam"
  = Returns serveNotFound /\
  IndexAndEntryHandler sample_globals "casa" "/lema/casa"
  = Returns (mkResponse 200
               (CreateEntryPageData "casa" (RenderEntry entry_casa)
                  "adonar-se_(de)" "cosa")).
Proof.
  split; [exact publish_sample|].
  destruct (IndexAndEntryHandler_spec sample_data sample_globals "" "/"
              publish_sample) as (Hhome & _).
  destruct (IndexAndEntryHandler_spec sample_data sample_globals ""
              "/index.php" publish_sample) as (_ & Hother & _).
  destruct (IndexAndEntryHandler_spec sample_data sample_globals "casam"
              "/lema/casam" publish_sample) as (_ & _ & Hfree & _).
  destruct (IndexAndEntryHandler_spec sample_data sample_globals "casa"
              "/lema/casa" publish_sample) as (_ & _ & _ & Hfound).
  split; [exact (Hhome eq_refl eq_refl)|].
  split; [apply Hother; [reflexivity|discriminate]|].
  split.
  - apply Hfree; [discriminate|]. intros e He. simpl in He.
    repeat (apply elem_of_cons in He as [->|He]); try discriminate.
    by apply elem_of_nil in He.
  - destruct (Hfound ltac:(discriminate) 1%nat entry_casa)
      as (p & x & Hadj & ->); [|reflexivity|].
    + split; [by exists entry_casa|].
      intros [|[|[|[|m]]]] e' Hm He'; try lia; simpl in He';
        first [injection He' as <-; discriminate
              | by rewrite lookup_nil in He'].
    + vm_compute in Hadj. injection Hadj as <- <-. reflexivity.
Defined.

(** X8. [SemanticFieldHandler] serves the first semantic field whose path is
    the slug, and the 404 page exactly when no field has that path. *)
Theorem SemanticFieldHandler_spec (g : Globals) (slug : string) :
  (forall n field,
     SemanticFields g !! n = Some field -> Path field = slug ->
     (forall m field', (m < n)%nat -> SemanticFields g !! m = Some field' ->
                       Path field' <> slug) ->
     SemanticFieldHandler g slug
     = mkResponse StatusOK
         (CreateSemanticFieldPageData (Title field) (Body field))) /\
  ((forall field, field ∈ SemanticFields g -> Path field <> slug) <->
   SemanticFieldHandler g slug = serveNotFound).
Proof.
  unfold SemanticFieldHandler.
  induction (SemanticFields g) as [|f fields [IHfirst IHnone]]; simpl.
  - split; [by intros n field Hn|]. split; [done|].
    intros _ field Hin. by apply elem_of_nil in Hin.
  - case_decide as Hf.
    + split.
      * intros [|n] field Hn Hp Hfirst.
        -- by injection Hn as <-.
        -- destruct (Hfirst O f); [lia|done|done].
      * split; [|discriminate]. intros Hnone. destruct (Hnone f); [left|done].
    + split.
      * intros [|n] field Hn Hp Hfirst; [injection Hn as <-; done|].
        apply (IHfirst n); [done..|].
        intros m field' Hm. apply (Hfirst (S m)). lia.
      * rewrite <- IHnone. split.
        -- intros Hall field Hin. apply Hall. by right.
        -- intros Hall field [->|Hin]%elem_of_cons; auto.
Qed.

Lemma SemanticFieldHandler_spec_witness :
  SemanticFieldHandler fields_globals "la-casa"
  = mkResponse 200 (CreateSemanticFieldPageData "La casa" "<p>casa</p>") /\
  SemanticFieldHandler fields_globals "la-mar" = serveNotFound.
Proof.
  destruct (SemanticFieldHandler_spec fields_globals "la-casa") as [Hfirst _].
  destruct (SemanticFieldHandler_spec fields_globals "la-mar") as [_ Hnone].
  split.
  - apply (Hfirst 1%nat field_casa); [reflexivity..|].
    intros [|m] field' Hm Hf; [|lia]. injection Hf as <-. discriminate.
  - apply Hnone. intros field Hin. simpl in Hin.
    repeat (apply elem_of_cons in Hin as [->|Hin]); try discriminate.
    by apply elem_of_nil in Hin.
Defined.

(** ** The generator *)

Section generator.
Context {ge : GeneratorEnv}.

Lemma generateEntryPages_loop_plan (data : Data) (g : Globals) :
  publish data = Returns g ->
  NoDup (Slug <$> data_Entries data) ->
  forall rest n fs,
    (forall k e, rest !! k = Some e ->
                 data_Entries data !! (n + k)%nat = Some e) ->
    generateEntryPages_loop g rest fs
    = Returns (write_pages failed_to_generate_entry
                 (entry_jobs_from (data_Entries data) n rest) fs).
Proof.
  intros Hload Hnd. induction rest as [|e rest IH]; intros n fs Hrest; [done|].
  simpl. unfold generateEntryPage.
  rewrite (GetAdjacentEntrySlugs_at data g n e Hload Hnd).
  - simpl. unfold before_at, after_at.
    destruct (writeHTMLFile _ _ fs) as [fs' [err|]]; simpl; [done|].
    apply IH. intros k x Hk. replace (S n + k)%nat with (n + S k)%nat by lia.
    by apply Hrest.
  - replace n with (n + 0)%nat at 1 by lia. by apply Hrest.
Qed.

(** X9. With pairwise distinct slugs, [generateEntryPages] does not panic and
    writes, in the order of the entries and up to the first write that
    fails, one page per entry: at [lema/<slug>.html], with the rendering of
    the entry, linked to the slugs of the entries before and after it. *)
Theorem generateEntryPages_plan (data : Data) (g : Globals) (fs : FS) :
  publish data = Returns g ->
  NoDup (Slug <$> data_Entries data) ->
  generateEntryPages g fs
  = Returns (write_pages failed_to_generate_entry
               (entry_jobs_from (data_Entries data) 0 (data_Entries data)) fs).
Proof.
  intros Hload Hnd. unfold generateEntryPages.
  destruct (publish_inv data g Hload) as (-> & _).
  by apply generateEntryPages_loop_plan.
Qed.

Lemma generateLetterPages_loop_plan (data : Data) (g : Globals) :
  publish data = Returns g ->
  ascii_initials (data_Entries data) ->
  forall rest j fs,
    (forall k l, rest !! k = Some l ->
                 DictionaryLetters g !! (j + k)%nat = Some l) ->
    generateLetterPages_loop g rest fs
    = Returns (write_pages failed_to_generate_letter_page
                 (letter_jobs_from (data_Entries data) (DictionaryLetters g)
                    j rest) fs).
Proof.
  intros Hload Hascii.
  destruct (DictionaryLetters_spec data g Hload) as (_ & Hnd & Hin).
  destruct (publish_inv data g Hload) as (Hall & _).
  induction rest as [|l rest IH]; intros j fs Hrest; [done|].
  assert (DictionaryLetters g !! j = Some l) as Hj.
  { replace j with (j + 0)%nat by lia. by apply Hrest. }
  assert (l ∈ DictionaryLetters g) as Hl by (apply list_elem_of_lookup; eauto).
  apply Hin in Hl as (e & b & t & He & Ht & ->).
  rewrite (string_of_byte_ascii b) in * by by eapply Hascii.
  simpl. unfold GetEntriesByFirstLetter.
  rewrite Hall, GetEntriesByFirstLetter_loop_Returns. simpl.
  destruct (entries_of_letter b (data_Entries data)) as [|x xs] eqn:Hes.
  { exfalso. revert Hes. apply entries_of_letter_cons_iff. eauto. }
  replace (len (x :: xs) =? 0) with false
    by (symmetry; apply Z.eqb_neq; unfold len; simpl; lia).
  rewrite (GetNavigationLetters_at g j _ Hnd Hj). simpl.
  destruct (writeHTMLFile _ _ fs) as [fs' [err|]]; simpl; [done|].
  apply IH. intros k x' Hk. replace (S j + k)%nat with (j + S k)%nat by lia.
  by apply Hrest.
Qed.

(** X10. When every non-empty normalized title begins with an ASCII byte,
    [generateLetterPages] does not panic, passes over no letter, and
    writes, in the order of the letters and up to the first write that
    fails, one page per letter: at [lletra/<letter>.html], with the entries
    of the letter, linked to the letters before and after it. *)
Theorem generateLetterPages_plan (data : Data) (g : Globals) (fs : FS) :
  publish data = Returns g ->
  ascii_initials (data_Entries data) ->
  generateLetterPages g fs
  = Returns (write_pages failed_to_generate_letter_page
               (letter_jobs_from (data_Entries data) (DictionaryLetters g)
                  0 (DictionaryLetters g)) fs).
Proof.
  intros Hload Hascii. unfold generateLetterPages.
  by apply (generateLetterPages_loop_plan data).
Qed.

Lemma generateEntryPages_loop_Returns (data : Data) (g : Globals) :
  publish data = Returns g ->
  forall rest fs, exists r, generateEntryPages_loop g rest fs = Returns r.
Proof.
  intros Hload. induction rest as [|e rest IH]; intros fs; simpl; [eauto|].
  unfold generateEntryPage.
  destruct (GetAdjacentEntrySlugs_Returns data g (Slug e) Hload)
    as (p & n & ->).
  simpl. destruct (writeHTMLFile _ _ fs) as [fs' [err|]]; simpl; eauto.
Qed.

Lemma generateLetterPages_loop_Returns (g : Globals) :
  forall rest fs,
    Forall (fun l => l <> EmptyString) rest ->
    exists r, generateLetterPages_loop g rest fs = Returns r.
Proof.
  induction rest as [|l rest IH]; intros fs Hrest; simpl; [eauto|].
  apply Forall_cons in Hrest as [Hl Hrest].
  destruct l as [|c t]; [done|]. unfold GetEntriesByFirstLetter.
  rewrite GetEntriesByFirstLetter_loop_Returns. simpl.
  destruct (len (entries_of_letter c (AllEntries g)) =? 0); [by apply IH|].
  destruct (GetNavigationLetters_Returns g (String c t)) as (p & n & ->).
  simpl. destruct (writeHTMLFile _ _ fs) as [fs' [err|]]; simpl; eauto.
Qed.

(** X11. In a loaded state neither [generateEntryPages] nor
    [generateLetterPages] panics, whatever the entries are: every position
    of the slug index is one of [AllEntries], and no dictionary letter is
    the empty string, on which [GetEntriesByFirstLetter] would panic. *)
Theorem generate_pages_Returns (data : Data) (g : Globals) (fs : FS) :
  publish data = Returns g ->
  (exists r, generateEntryPages g fs = Returns r) /\
  (exists r, generateLetterPages g fs = Returns r) /\
  Forall (fun l => l <> EmptyString) (DictionaryLetters g).
Proof.
  intros Hload.
  assert (Forall (fun l => l <> EmptyString) (DictionaryLetters g)) as Hne.
  { destruct (DictionaryLetters_spec data g Hload) as (_ & _ & Hin).
    apply Forall_forall. intros l (e & b & t & _ & _ & ->)%Hin.
    unfold string_of_byte. by destruct (N_of_ascii b <? 128)%N. }
  split; [by apply (generateEntryPages_loop_Returns data)|].
  split; [by apply generateLetterPages_loop_Returns|done].
Qed.

End generator.

Lemma generateEntryPages_plan_witness :
  publish sample_data = Returns sample_globals /\
  NoDup (Slug <$> data_Entries sample_data) /\
  generateEntryPages (ge := sample_generator) sample_globals []
  = Returns ([("build/lema/casa.html", "casa");
              ("build/lema/adonar-se_(de).html", "adonar-se (de)")],
             Some (failed_to_generate_entry (ge := sample_generator)
                     "cosa" "permission denied")).
Proof.
  assert (NoDup (Slug <$> data_Entries sample_data)) as Hnd by compute_done.
  split; [exact publish_sample|]. split; [exact Hnd|].
  rewrite (generateEntryPages_plan (ge := sample_generator) sample_data
             sample_globals [] publish_sample Hnd).
  vm_compute. reflexivity.
Defined.

Lemma generateLetterPages_plan_witness :
  publish sample_data = Returns sample_globals /\
  ascii_initials (data_Entries sample_data) /\
  generateLetterPages (ge := sample_generator) sample_globals []
  = Returns ([("build/lletra/q.html", "Paraules que comencen per q");
              ("build/lletra/c.html", "Paraules que comencen per c");
              ("build/lletra/a.html", "Paraules que comencen per a")],
             None).
Proof.
  split; [exact publish_sample|]. split; [exact ascii_initials_sample|].
  rewrite (generateLetterPages_plan (ge := sample_generator) sample_data
             sample_globals [] publish_sample ascii_initials_sample).
  vm_compute. reflexivity.
Defined.

Lemma generate_pages_Returns_witness :
  publish cedilla_data = Returns cedilla_globals /\
  (exists r, generateEntryPages (ge := sample_generator) cedilla_globals []
             = Returns r) /\
  (exists r, generateLetterPages (ge := sample_generator) cedilla_globals []
             = Returns r).
Proof.
  assert (publish cedilla_data = Returns cedilla_globals) as Hload
    by (vm_compute; reflexivity).
  split; [exact Hload|].
  destruct (generate_pages_Returns (ge := sample_generator) cedilla_data
              cedilla_globals [] Hload) as (Hentries & Hletters & _).
  split; [exact Hentries|exact Hletters].
Defined.

(** ** Which files are compressed *)

Lemma filepath_Ext_scan_plain (e : string) :
  plain_name e = true -> filepath_Ext_scan e = ExtNone.
Proof.
  induction e as [|c e IH]; [done|]. simpl.
  intros [[Hdot Hsep]%andb_true_iff He]%andb_true_iff. rewrite (IH He).
  apply negb_true_iff in Hdot as ->. by apply negb_true_iff in Hsep as ->.
Qed.

Lemma filepath_Ext_app_dot (stem e : string) :
  plain_name e = true ->
  filepath_Ext (stem +:+ String "." e) = String "." e.
Proof.
  intros He. unfold filepath_Ext.
  assert (filepath_Ext_scan (stem +:+ String "." e)
          = ExtFound (String "." e)) as ->; [|done].
  induction stem as [|c stem IH]; simpl.
  - by rewrite (filepath_Ext_scan_plain e He).
  - by rewrite IH.
Qed.

Lemma filepath_Ext_scan_found (path ext : string) :
  filepath_Ext_scan path = ExtFound ext ->
  exists stem e,
    path = stem +:+ String "." e /\ ext = String "." e /\ plain_name e = true.
Proof.
  revert ext. induction path as [|c path IH]; intros ext; [done|]. simpl.
  destruct (filepath_Ext_scan path) as [ext'| |] eqn:Hscan.
  - intros [= <-]. destruct (IH ext' eq_refl) as (stem & e & -> & -> & He).
    by exists (String c stem), e.
  - done.
  - destruct (Ascii.eqb_spec c ".") as [->|Hdot].
    + intros [= <-]. exists EmptyString, path. split; [done|]. split; [done|].
      clear IH. induction path as [|d path IHp]; [done|]. simpl in *.
      destruct (filepath_Ext_scan path); [done..|].
      destruct (Ascii.eqb d "."); [done|].
      destruct (Ascii.eqb d "/"); [done|]. simpl. by apply IHp.
    + by destruct (Ascii.eqb c "/").
Qed.

Lemma strings_ToLower_dot {u : Unicode} (e : string) :
  isASCII e = true ->
  strings_ToLower (String "." e) = String "." (lower_bytes e).
Proof. intros He. unfold strings_ToLower. simpl. by rewrite He. Qed.

(** X12. [shouldCompress] looks at the last element of the path alone.  It
    holds only for a path that ends in a dot followed by a name without
    dot or separator, and for such a path with an all-ASCII name it holds
    exactly when that name is [css], [js], [svg] or [html] up to the case
    of its letters. *)
Theorem shouldCompress_spec {u : Unicode} (path : string) :
  (forall stem e,
     path = stem +:+ String "." e -> plain_name e = true ->
     isASCII e = true ->
     (shouldCompress path = true <->
      lower_bytes e ∈ ["css"; "js"; "svg"; "html"])) /\
  (shouldCompress path = true ->
   exists stem e, path = stem +:+ String "." e /\ plain_name e = true).
Proof.
  unfold shouldCompress. split.
  - intros stem e -> Hplain Hascii.
    rewrite (filepath_Ext_app_dot stem e Hplain).
    rewrite (strings_ToLower_dot e Hascii). case_decide as Hext.
    + split; [|done]. intros _.
      destruct Hext as [[= ->]|[[= ->]|[[= ->]|[= ->]]]];
        repeat first [by left | right].
    + split; [done|]. intros Hin. destruct Hext.
      repeat (apply elem_of_cons in Hin as [->|Hin]); [tauto..|].
      by apply elem_of_nil in Hin.
  - unfold filepath_Ext.
    destruct (filepath_Ext_scan path) as [ext| |] eqn:Hscan.
    + intros _. destruct (filepath_Ext_scan_found path ext Hscan)
        as (stem & e & -> & _ & He). eauto.
    + by case_decide as Hext; [destruct Hext as [?|[?|[?|?]]]|].
    + by case_decide as Hext; [destruct Hext as [?|[?|[?|?]]]|].
Qed.

Lemma shouldCompress_spec_witness :
  shouldCompress (u := sample_unicode) "build/lema/casa.html" = true /\
  shouldCompress (u := sample_unicode) "build/img/LOGO.SVG" = true /\
  shouldCompress (u := sample_unicode) "build/v1.css/readme" = false /\
  shouldCompress (u := sample_unicode) "build/img/logo.png" = false.
Proof.
  destruct (shouldCompress_spec (u := sample_unicode) "build/lema/casa.html")
    as [Hhtml _].
  destruct (shouldCompress_spec (u := sample_unicode) "build/img/LOGO.SVG")
    as [Hsvg _].
  destruct (shouldCompress_spec (u := sample_unicode) "build/v1.css/readme")
    as [_ Hdir].
  destruct (shouldCompress_spec (u := sample_unicode) "build/img/logo.png")
    as [Hpng _].
  split; [|split; [|split]].
  - apply (Hhtml "build/lema/casa" "html"); [reflexivity..|].
    simpl. right. right. right. left.
  - apply (Hsvg "build/img/LOGO" "SVG"); [reflexivity..|].
    vm_compute. right. right. left.
  - destruct (shouldCompress (u := sample_unicode) "build/v1.css/readme")
      eqn:Hyes; [|reflexivity].
    destruct (Hdir eq_refl) as (stem & e & _ & _). discriminate Hyes.
  - destruct (shouldCompress (u := sample_unicode) "build/img/logo.png")
      eqn:Hyes; [|reflexivity].
    destruct (Hpng "build/img/logo" "png" eq_refl eq_refl eq_refl)
      as [Hin _].
    specialize (Hin eq_refl). exfalso. revert Hin. compute_done.
Defined.

(** X13. The files [compressFile] creates are no files to compress: whatever
    the path, [shouldCompress] is false of its [.gz] and of its [.br]
    companion, so that a second run over the output directory adds no
    [.gz.gz] or [.br.gz]. *)
Theorem compressed_files_not_compressed {u : Unicode} (filePath : string) :
  shouldCompress (gzPath filePath) = false /\
  shouldCompress (brPath filePath) = false.
Proof.
  unfold shouldCompress, gzPath, brPath.
  rewrite (filepath_Ext_app_dot filePath "gz") by done.
  rewrite (filepath_Ext_app_dot filePath "br") by done.
  rewrite !strings_ToLower_dot by done. split; reflexivity.
Qed.

(** ** The autocomplete *)

Lemma replace_class_lookup (class : list Z) (by_unit : Z) (text : list Z)
    (i : nat) :
  replace_class class by_unit text !! i
  = (fun unit => if decide (unit ∈ class) then by_unit else unit)
      <$> text !! i.
Proof. unfold replace_class. apply list_lookup_fmap. Qed.

(** What [normalizeText] does to one code unit. *)
Lemma normalizeText_lookup (text : list Z) (i : nat) (unit : Z) :
  text !! i = Some unit ->
  exists unit',
    normalizeText text !! i = Some unit' /\
    (unit' ∉ accented_vowels) /\
    (unit ∉ accented_vowels -> unit' = unit) /\
    (unit ∈ accented_vowels -> unit' ∈ [97; 101; 105; 111; 117]).
Proof.
  intros Hi. unfold normalizeText. rewrite !replace_class_lookup, Hi. simpl.
  eexists. split; [reflexivity|]. unfold accented_vowels.
  repeat case_decide; set_unfold; lia.
Qed.

Lemma unaccented_unit (unit : Z) :
  (if decide (unit ∈ accented_vowels) then unaccented unit ∈ [97; 101; 105; 111; 117]
   else unaccented unit = unit) /\
  let replace class by_unit unit :=
    if decide (unit ∈ class) then by_unit else unit in
  replace [250; 252] 117
    (replace [242; 243] 111
       (replace [237; 239] 105
          (replace [232; 233] 101 (replace [224] 97 unit))))
  = unaccented unit.
Proof.
  unfold unaccented, vowel_of_accented, accented_vowels. cbn [find fst snd].
  repeat match goal with
         | |- context [?a =? unit] =>
             destruct (Z.eqb_spec a unit) as [<-|?];
               [split; [rewrite decide_True by (set_unfold; lia); simpl;
                        set_unfold; lia
                       |by vm_compute]|]
         end.
  cbv zeta. repeat case_decide; set_unfold; lia.
Qed.

(** [normalizeText] code unit by code unit. *)
Lemma normalizeText_unaccented (text : list Z) :
  normalizeText text = unaccented <$> text.
Proof.
  unfold normalizeText, replace_class. rewrite <- !list_fmap_compose.
  apply list_fmap_ext. intros i unit _. simpl.
  by destruct (unaccented_unit unit) as [_ <-].
Qed.

(** X16. [normalizeText] replaces each of the nine precomposed accented vowels
    by its vowel, a for a-grave, e for e-grave and e-acute, i for i-acute
    and i-diaeresis, o for o-grave and o-acute, u for u-acute and
    u-diaeresis, and keeps every other code unit: it keeps the length of
    the text, leaves none of the nine in its result, and applied twice gives
    what it gives applied once.  The c-cedilla, U+00E7, stays. *)
Theorem normalizeText_spec (text : list Z) :
  normalizeText text = unaccented <$> text /\
  unaccented <$> accented_vowels
  = [97; 101; 101; 105; 105; 111; 111; 117; 117] /\
  (forall unit, unit ∉ accented_vowels -> unaccented unit = unit) /\
  length (normalizeText text) = length text /\
  (forall i unit,
     text !! i = Some unit -> unit ∉ accented_vowels ->
     normalizeText text !! i = Some unit) /\
  (forall unit, unit ∈ normalizeText text -> unit ∉ accented_vowels) /\
  normalizeText (normalizeText text) = normalizeText text /\
  231 ∉ accented_vowels.
Proof.
  split; [apply normalizeText_unaccented|]. split; [reflexivity|].
  split.
  { intros unit Hplain. destruct (unaccented_unit unit) as [Hunit _].
    by rewrite decide_False in Hunit. }
  split; [|split; [|split; [|split]]].
  - unfold normalizeText, replace_class. by rewrite !length_fmap.
  - intros i unit Hi Hplain.
    destruct (normalizeText_lookup text i unit Hi) as (u' & -> & _ & Hkeep & _).
    by rewrite Hkeep.
  - intros unit [i Hi]%list_elem_of_lookup.
    destruct (lookup_lt_is_Some_2 text i) as [u Hu].
    { apply lookup_lt_Some in Hi. unfold normalizeText, replace_class in Hi.
      by rewrite !length_fmap in Hi. }
    destruct (normalizeText_lookup text i u Hu) as (u' & Hu' & Hout & _).
    congruence.
  - apply list_eq. intros i.
    destruct (normalizeText text !! i) as [u|] eqn:Hu.
    + destruct (normalizeText_lookup (normalizeText text) i u Hu)
        as (u' & -> & _ & Hkeep & _).
      rewrite Hkeep; [done|].
      destruct (lookup_lt_is_Some_2 text i) as [u0 Hu0].
      { apply lookup_lt_Some in Hu. unfold normalizeText, replace_class in Hu.
        by rewrite !length_fmap in Hu. }
      destruct (normalizeText_lookup text i u0 Hu0) as (u1 & Hu1 & Hout & _).
      congruence.
    + apply lookup_ge_None. apply lookup_ge_None in Hu.
      unfold normalizeText, replace_class in *. by rewrite !length_fmap in *.
  - unfold accented_vowels. set_unfold. lia.
Qed.

Lemma display_items_ended {A} (matches : list (option A)) :
  (display_items matches).2
  = negb (existsb (fun m => match m with None => true | Some _ => false end)
            matches).
Proof.
  induction matches as [|[entry|] matches IH]; simpl; [done| |done].
  by destruct (display_items matches).
Qed.

Lemma display_items_nonempty {A} (matches : list (option A)) :
  matches <> [] -> (display_items matches).2 = true ->
  (display_items matches).1 <> [].
Proof.
  destruct matches as [|[entry|] matches]; simpl; [done| |done].
  by destruct (display_items matches).
Qed.

(** Every listener keeps the selection in range, and the only listeners
    that throw are those of the [input] events that [input_throws] names. *)
Lemma autocomplete_step_in_range {A} (st : Autocomplete A)
    (ev : AutocompleteEvent A) :
  selection_in_range st ->
  selection_in_range (outcome_state (autocomplete_step st ev)) /\
  (if input_throws ev
   then exists st', autocomplete_step st ev = Throws st'
   else exists st' selected, autocomplete_step st ev = Done st' selected).
Proof.
  unfold selection_in_range. intros Hok.
  destruct ev as [result|key| |position|position|].
  - destruct result as [| | |matches].
    + simpl. by eauto.
    + simpl. split; [by left|by eauto].
    + simpl. split; [by left|by eauto].
    + destruct matches as [|m matches].
      { simpl. split; [by left|by eauto]. }
      pose proof (display_items_ended (m :: matches)) as Hended.
      pose proof (display_items_nonempty (m :: matches)) as Hnonempty.
      cbn [autocomplete_step input_throws].
      destruct (existsb _ (m :: matches));
        destruct (display_items (m :: matches)) as [items ended];
        cbn [fst snd] in *; subst ended; cbn [negb].
      * split; [by left|by eauto].
      * split; [|by eauto]. right.
        destruct items; [by destruct Hnonempty|].
        unfold len. simpl. lia.
  - cbn [autocomplete_step input_throws]. cbn zeta. cbn [selectedIndex shown].
    destruct (len (shown st) =? 0) eqn:Hlen; [by eauto|].
    apply Z.eqb_neq in Hlen.
    assert (0 < len (shown st)) by (unfold len in *; lia).
    destruct key.
    + split; [|by eauto]. right. simpl. destruct Hok as [->|Hin].
      * rewrite Z.rem_0_l by lia. lia.
      * apply Z.rem_bound_pos; lia.
    + split; [|by eauto]. right. simpl.
      destruct (selectedIndex st <=? 0) eqn:Hle; [lia|].
      apply Z.leb_gt in Hle. lia.
    + destruct (0 <=? selectedIndex st) eqn:Hsel; cbn [andb]; [|by eauto].
      apply Z.leb_le in Hsel.
      replace (0 <? len (shown st)) with true
        by (symmetry; apply Z.ltb_lt; lia).
      unfold item_click. cbn [shown].
      destruct (lookup_lt_is_Some_2 (shown st) (Z.to_nat (selectedIndex st)))
        as [entry Hentry]; [unfold len in *; lia|].
      rewrite Hentry. split; [by left|by eauto].
    + split; [by left|by eauto].
    + by eauto.
  - simpl. by eauto.
  - simpl. destruct (shown st !! position) as [entry|] eqn:Hpos; [|by eauto].
    destruct (mouseHasMoved st); [|by eauto].
    split; [|by eauto]. right. simpl.
    apply lookup_lt_Some in Hpos. unfold len. lia.
  - simpl. destruct (shown st !! position) as [entry|] eqn:Hpos; [|by eauto].
    unfold item_click. rewrite Hpos. split; [by left|by eauto].
  - simpl. split; [by left|by eauto].
Qed.

Lemma autocomplete_run_in_range {A} (evs : list (AutocompleteEvent A)) :
  forall st,
    selection_in_range st -> selection_in_range (autocomplete_run st evs).1.
Proof.
  induction evs as [|ev evs IH]; intros st Hok; simpl; [done|].
  destruct (autocomplete_step_in_range st ev Hok) as [Hok' _].
  specialize (IH _ Hok').
  by destruct (autocomplete_run (outcome_state (autocomplete_step st ev)) evs).
Qed.





(** ** The server and the static site *)

Section server_and_generator.
Context {ge : GeneratorEnv}.

Lemma entry_jobs_from_lookup (entries rest : list Entry) :
  forall k n e,
    rest !! n = Some e ->
    entry_jobs_from entries k rest !! n
    = Some (Slug e, filepath_Join "lema" (Slug e +:+ ".html"),
            CreateEntryPageData (Slug e) (RenderEntry e)
              (before_at Slug entries (k + n))
              (after_at Slug entries (k + n))).
Proof.
  induction rest as [|x rest IH]; intros k n e Hn; [by rewrite lookup_nil in Hn|].
  destruct n as [|n]; simpl in *.
  - injection Hn as ->. by rewrite Nat.add_0_r.
  - rewrite (IH (S k) n e Hn). by replace (S k + n)%nat with (k + S n)%nat by lia.
Qed.

Lemma letter_jobs_from_lookup (entries : list Entry) (letters rest : list string) :
  forall k j l,
    rest !! j = Some l ->
    letter_jobs_from entries letters k rest !! j
    = Some (l, filepath_Join "lletra" (l +:+ ".html"),
            CreateLetterPageData l (entries_of l entries)
              (before_at id letters (k + j)) (after_at id letters (k + j))).
Proof.
  induction rest as [|x rest IH]; intros k j l Hj; [by rewrite lookup_nil in Hj|].
  destruct j as [|j]; simpl in *.
  - injection Hj as ->. by rewrite Nat.add_0_r.
  - rewrite (IH (S k) j l Hj). by replace (S k + j)%nat with (k + S j)%nat by lia.
Qed.

(** X14. With pairwise distinct slugs, the server answers the request for the
    slug of an entry with the very page data [generateEntryPages] writes
    for that entry, provided the slug is not the empty string, which the
    server reads as a request for the home page. *)
Theorem entry_page_served_as_generated
    (data : Data) (g : Globals) (n : nat) (e : Entry) (urlPath : string) :
  publish data = Returns g ->
  NoDup (Slug <$> data_Entries data) ->
  data_Entries data !! n = Some e ->
  Slug e <> EmptyString ->
  exists path page,
    entry_jobs_from (data_Entries data) 0 (data_Entries data) !! n
    = Some (Slug e, path, page) /\
    IndexAndEntryHandler g (Slug e) urlPath
    = Returns (mkResponse StatusOK page).
Proof.
  intros Hload Hnd Hn Hslug. eexists _, _.
  split; [by apply entry_jobs_from_lookup|].
  destruct (publish_inv data g Hload) as (Hall & Hidx & _).
  unfold IndexAndEntryHandler, RenderEntryBySlug.
  rewrite decide_False by done.
  assert (entryIndexBySlug g !! Slug e = Some (Z.of_nat n)) as ->.
  { rewrite Hidx. apply index_of_empty_spec. exists n.
    split; [by apply NoDup_slug_last_at|done]. }
  rewrite Hall, (index_lookup _ _ _ Hn). simpl.
  by rewrite (GetAdjacentEntrySlugs_at data g n e Hload Hnd Hn).
Qed.

(** X15. When every non-empty normalized title begins with an ASCII byte, the
    server answers the request for a dictionary letter a-z with the very
    page data [generateLetterPages] writes for that letter; for a
    dictionary letter that is no letter a-z, a digit for one, it answers
    the 404 page although the static site has the page. *)
Theorem letter_page_served_as_generated
    (data : Data) (g : Globals) (j : nat) (l : string) :
  publish data = Returns g ->
  ascii_initials (data_Entries data) ->
  DictionaryLetters g !! j = Some l ->
  exists path page,
    letter_jobs_from (data_Entries data) (DictionaryLetters g) 0
      (DictionaryLetters g) !! j
    = Some (l, path, page) /\
    ((exists c, l = String c EmptyString /\ lowercase c) ->
     LetterHandler g l = Returns (mkResponse StatusOK page)) /\
    ((forall c, l = String c EmptyString -> ~ lowercase c) ->
     LetterHandler g l = Returns serveNotFound).
Proof.
  intros Hload Hascii Hj. eexists _, _.
  split; [by apply letter_jobs_from_lookup|].
  split; [|apply LetterHandler_other].
  intros (c & -> & Hc). rewrite (LetterHandler_letter g c Hc).
  destruct (DictionaryLetters_spec data g Hload) as (_ & Hnd & Hin).
  destruct (publish_inv data g Hload) as (Hall & _).
  assert (String c EmptyString ∈ DictionaryLetters g) as Hmem
    by (apply list_elem_of_lookup; eauto).
  apply Hin in Hmem as (e & b & t & He & Ht & Hb).
  rewrite (string_of_byte_ascii b) in Hb by by eapply Hascii.
  injection Hb as ->. rewrite Hall. simpl.
  destruct (entries_of_letter b (data_Entries data)) as [|x xs] eqn:Hes.
  { exfalso. revert Hes. apply entries_of_letter_cons_iff. eauto. }
  by rewrite (GetNavigationLetters_at g j _ Hnd Hj).
Qed.

End server_and_generator.

Lemma entry_page_served_as_generated_witness :
  publish sample_data = Returns sample_globals /\
  NoDup (Slug <$> data_Entries sample_data) /\
  data_Entries sample_data !! 0%nat = Some entry_adonar /\
  Slug entry_adonar <> EmptyString /\
  IndexAndEntryHandler sample_globals "adonar-se_(de)" "/lema/adonar-se_(de)"
  = Returns (mkResponse 200
               (CreateEntryPageData "adonar-se_(de)" (RenderEntry entry_adonar)
                  "" "casa")).
Proof.
  assert (NoDup (Slug <$> data_Entries sample_data)) as Hnd by compute_done.
  assert (Slug entry_adonar <> EmptyString) as Hslug by discriminate.
  split; [exact publish_sample|]. split; [exact Hnd|].
  split; [reflexivity|]. split; [exact Hslug|].
  destruct (entry_page_served_as_generated (ge := sample_generator)
              sample_data sample_globals 0%nat entry_adonar
              "/lema/adonar-se_(de)" publish_sample Hnd eq_refl Hslug)
    as (path & page & Hjob & Hserved).
  etransitivity; [exact Hserved|].
  vm_compute in Hjob. injection Hjob as <- <-. reflexivity.
Defined.

Lemma letter_page_served_as_generated_witness :
  publish digit_data = Returns digit_globals /\
  ascii_initials (data_Entries digit_data) /\
  DictionaryLetters digit_globals = ["1"; "c"] /\
  LetterHandler digit_globals "1" = Returns serveNotFound /\
  LetterHandler digit_globals "c"
  = Returns (mkResponse 200
               (CreateLetterPageData "c" [LetterEntry.mk "casa" "Casa"] "1" "")).
Proof.
  assert (publish digit_data = Returns digit_globals) as Hload
    by (vm_compute; reflexivity).
  assert (ascii_initials (data_Entries digit_data)) as Hascii.
  { intros e b t He Ht. simpl in He.
    repeat (apply elem_of_cons in He as [->|He]);
      [injection Ht as <- _; reflexivity..|].
    by apply elem_of_nil in He. }
  split; [exact Hload|]. split; [exact Hascii|]. split; [reflexivity|].
  destruct (letter_page_served_as_generated (ge := sample_generator)
              digit_data digit_globals 0%nat "1" Hload Hascii eq_refl)
    as (path1 & page1 & _ & _ & Hdigit).
  destruct (letter_page_served_as_generated (ge := sample_generator)
              digit_data digit_globals 1%nat "c" Hload Hascii eq_refl)
    as (path2 & page2 & Hjob & Hletter & _).
  split.
  - apply Hdigit. intros c [= <-] [Hlo _]. simpl in Hlo. lia.
  - rewrite Hletter.
    + vm_compute in Hjob. injection Hjob as <- <-. reflexivity.
    + exists "c"%char. split; [reflexivity|]. unfold lowercase. simpl. lia.
Defined.
